(** * NetworkHub: the signalling client of smoke-node

    Shallow embedding of [packages/smoke-node/src/hub/network/client.ts]
    and verification of the connection-gated request/response
    correlation engine it implements.

    The class [NetworkHub] owns a [Barrier] (the connection gate), a
    [Deferred] (the correlation table), the current [binding] and the
    [request_id] counter.  Its methods are embedded as functions on an
    explicit state; the web socket, the event emitter and the promises
    handed back to callers are recorded in the same state as logs. *)

From Stdlib Require Import ZArith NArith Lia Sorted.
From stdpp Require Import gmap strings list fin_maps.

Set Warnings "-register-all".
Local Open Scope string_scope.
Local Open Scope list_scope.
Local Open Scope Z_scope.

(** ** JavaScript values *)

(** The values that flow through the client: what [JSON.parse] can
    produce, plus [undefined].  An object is its list of own properties;
    numbers are the integer-valued ones (the protocol's only numeric field
    is [request_id]). *)
Inductive value : Type :=
| VUndefined
| VNull
| VBool (b : bool)
| VNum (n : Z)
| VStr (s : string)
| VArr (xs : list value)
| VObj (fields : list (string * value)).

(** Exceptions that can escape a method of the client. *)
Inductive exn : Type :=
| SyntaxError      (* JSON.parse on a malformed payload *)
| TypeError        (* property read on null or undefined *)
| AlreadyWaiting.  (* Deferred.wait on an identifier that has a slot *)

(** Fallible code: a returned value or a thrown exception. *)
Inductive result (A : Type) : Type :=
| Ok (a : A)
| Throw (e : exn).
Arguments Ok {A} a.
Arguments Throw {A} e.

Definition bind {A B} (r : result A) (k : A -> result B) : result B :=
  match r with
  | Ok a => k a
  | Throw e => Throw e
  end.

Notation "'let!' x ':=' r 'in' k" := (bind r (fun x => k))
  (at level 10, x name, r at level 100, k at level 200).

(** Own-property lookup in an object literal. *)
Fixpoint lookup_field (k : string) (fields : list (string * value)) : value :=
  match fields with
  | [] => VUndefined
  | (k', v) :: rest => if String.eqb k k' then v else lookup_field k rest
  end.

(** [v.k] for the property names this program reads ([type],
    [request_id], [reason], [address], [configuration]): a [TypeError] on
    [null] and [undefined], [undefined] on primitives and arrays, the own
    property on an object. *)
Definition get (v : value) (k : string) : result value :=
  match v with
  | VUndefined | VNull => Throw TypeError
  | VObj fields => Ok (lookup_field k fields)
  | _ => Ok VUndefined
  end.

(** The payload of a socket [message] event, [event.data], represented by
    what [JSON.parse] makes of it. *)
Inductive frame : Type :=
| Malformed
| Json (v : value).

Definition JSON_parse (data : frame) : result value :=
  match data with
  | Malformed => Throw SyntaxError
  | Json v => Ok v
  end.

(** [x++] on the counter.  A JavaScript number holds integers exactly up
    to 2^53; 2^53 + 1 rounds back to 2^53, so a counter that starts at 0
    stays in 0..2^53 and stops moving once it gets there. *)
Definition MAX_EXACT : Z := 2 ^ 53.

Definition number_succ (n : Z) : Z :=
  if n <? MAX_EXACT then n + 1 else n.

(** ** Promises, gate and correlation table *)

(** A promise handed to a caller is a handle; its fate is recorded in
    [settled] once it is decided. *)
Abbreviation promise := nat (only parsing).

Inductive reason : Type :=
| Reason (r : value)   (* rejected with a value, here the server's reason *)
| Thrown (e : exn).    (* rejected by an exception *)

Inductive outcome : Type :=
| Fulfilled (v : value)
| Rejected (r : reason).

(** The [data] a caller passes to [forward<T>]: [T] is unconstrained, so
    it is either something [JSON.stringify] can encode, given by the value
    it encodes, or something it cannot: a BigInt, or a structure that
    refers back to itself (or one that holds either of them). *)
Inductive payload : Type :=
| Plain (v : value)
| BigInt (n : Z)
| Circular.

(** The closures the public methods pass to [barrier.run]. *)
Inductive action : Type :=
| Configuration
| Address
| Register (hostname : string)
| Lookup (hostname : string)
| Forward (to : string) (data : payload).

Record WebSocket : Type := mkSocket {
  sent   : list value;   (* envelopes encoded and given to send(), oldest first *)
  closed : bool          (* close() was called *)
}.

Record Barrier : Type := mkBarrier {
  paused   : bool;
  awaiters : list (action * promise)
}.

Record NetworkHub : Type := mkHub {
  socket       : WebSocket;
  barrier      : Barrier;
  deferred     : gmap Z promise;
  binding      : value;
  request_id   : Z;
  (* the surroundings of the instance *)
  emitted      : list (string * value);  (* super.emit(event, data), oldest first *)
  settled      : gmap promise outcome;   (* promises that are no longer pending *)
  next_promise : promise;                (* the next fresh handle *)
  uncaught     : list exn                (* exceptions that left a socket listener *)
}.

Definition set_socket (x : WebSocket) (s : NetworkHub) : NetworkHub :=
  mkHub x (barrier s) (deferred s) (binding s) (request_id s)
        (emitted s) (settled s) (next_promise s) (uncaught s).
Definition set_barrier (x : Barrier) (s : NetworkHub) : NetworkHub :=
  mkHub (socket s) x (deferred s) (binding s) (request_id s)
        (emitted s) (settled s) (next_promise s) (uncaught s).
Definition set_deferred (x : gmap Z promise) (s : NetworkHub) : NetworkHub :=
  mkHub (socket s) (barrier s) x (binding s) (request_id s)
        (emitted s) (settled s) (next_promise s) (uncaught s).
Definition set_binding (x : value) (s : NetworkHub) : NetworkHub :=
  mkHub (socket s) (barrier s) (deferred s) x (request_id s)
        (emitted s) (settled s) (next_promise s) (uncaught s).
Definition set_request_id (x : Z) (s : NetworkHub) : NetworkHub :=
  mkHub (socket s) (barrier s) (deferred s) (binding s) x
        (emitted s) (settled s) (next_promise s) (uncaught s).
Definition set_emitted (x : list (string * value)) (s : NetworkHub) : NetworkHub :=
  mkHub (socket s) (barrier s) (deferred s) (binding s) (request_id s)
        x (settled s) (next_promise s) (uncaught s).
Definition set_settled (x : gmap promise outcome) (s : NetworkHub) : NetworkHub :=
  mkHub (socket s) (barrier s) (deferred s) (binding s) (request_id s)
        (emitted s) x (next_promise s) (uncaught s).
Definition set_next_promise (x : promise) (s : NetworkHub) : NetworkHub :=
  mkHub (socket s) (barrier s) (deferred s) (binding s) (request_id s)
        (emitted s) (settled s) x (uncaught s).
Definition set_uncaught (x : list exn) (s : NetworkHub) : NetworkHub :=
  mkHub (socket s) (barrier s) (deferred s) (binding s) (request_id s)
        (emitted s) (settled s) (next_promise s) x.

(** A promise is decided once: the first settlement stays. *)
Definition settle (p : promise) (o : outcome) (s : NetworkHub) : NetworkHub :=
  match settled s !! p with
  | Some _ => s
  | None => set_settled (<[p := o]> (settled s)) s
  end.

(** [this.socket.send(text)], where the text is recorded by the envelope
    it encodes *)
Definition socket_send (envelope : value) (s : NetworkHub) : NetworkHub :=
  set_socket (mkSocket (sent (socket s) ++ [envelope]) (closed (socket s))) s.

(** [super.emit(event, data)] *)
Definition emit (event : string) (data : value) (s : NetworkHub) : NetworkHub :=
  set_emitted (emitted s ++ [(event, data)]) s.

(** Modelled from the spec: the class [Deferred] of [../../async] is not
    part of the sources at hand.  [wait(identifier)] registers a
    completion slot for the identifier and fails the caller only if the
    identifier is already registered; [resolve] and [reject] complete the
    slot and remove it from the table, and are silent no-ops when the
    identifier has no slot.  Slots are registered under numbers, so an
    identifier that is not a number has none. *)
Definition deferred_wait (id : Z) (p : promise) (s : NetworkHub) : NetworkHub :=
  match deferred s !! id with
  | Some _ => settle p (Rejected (Thrown AlreadyWaiting)) s
  | None => set_deferred (<[id := p]> (deferred s)) s
  end.

(** Modelled from the spec: what [Deferred.resolve] and [Deferred.reject]
    share.  The slot of the identifier, if there is one, is completed with
    the outcome and removed; otherwise nothing happens. *)
Definition deferred_complete (id : value) (o : outcome) (s : NetworkHub) : NetworkHub :=
  match id with
  | VNum k =>
      match deferred s !! k with
      | Some p => settle p o (set_deferred (delete k (deferred s)) s)
      | None => s
      end
  | _ => s
  end.

(** Modelled from the spec: [Deferred.resolve(identifier, payload)]. *)
Definition deferred_resolve (id payload : value) (s : NetworkHub) : NetworkHub :=
  deferred_complete id (Fulfilled payload) s.

(** Modelled from the spec: [Deferred.reject(identifier, reason)]. *)
Definition deferred_reject (id why : value) (s : NetworkHub) : NetworkHub :=
  deferred_complete id (Rejected (Reason why)) s.

(** ** The bodies of the gated closures *)

Definition register_envelope (id : Z) (hostname : string) : value :=
  VObj [("type", VStr "register"); ("request_id", VNum id); ("hostname", VStr hostname)].

Definition lookup_envelope (id : Z) (hostname : string) : value :=
  VObj [("type", VStr "lookup"); ("request_id", VNum id); ("hostname", VStr hostname)].

Definition forward_envelope (to : string) (from data : value) : value :=
  VObj [("to", VStr to); ("from", from); ("type", VStr "forward"); ("data", data)].

(** [JSON.stringify({ to, from, type, data })] in [forward]: it raises a
    [TypeError] on a BigInt and on a circular structure, so the envelope
    exists only for data it can encode.  (The envelopes of [register] and
    [lookup] hold two strings and the counter, and always encode.) *)
Definition JSON_stringify_forward (to : string) (from : value) (data : payload)
  : result value :=
  match data with
  | Plain v => Ok (forward_envelope to from v)
  | BigInt _ | Circular => Throw TypeError
  end.

(** What the closure of each public method does once the gate lets it
    run; [p] is the promise [barrier.run] gave to the caller. *)
Definition body (a : action) (p : promise) (s : NetworkHub) : result NetworkHub :=
  match a with
  | Configuration =>
      let! c := get (binding s) "configuration" in
      Ok (settle p (Fulfilled c) s)
  | Address =>
      let! c := get (binding s) "address" in
      Ok (settle p (Fulfilled c) s)
  | Register hostname =>
      let id := request_id s in
      let s := set_request_id (number_succ id) s in
      let s := socket_send (register_envelope id hostname) s in
      Ok (deferred_wait id p s)
  | Lookup hostname =>
      let id := request_id s in
      let s := set_request_id (number_succ id) s in
      let s := socket_send (lookup_envelope id hostname) s in
      Ok (deferred_wait id p s)
  | Forward to data =>
      let! from := get (binding s) "address" in
      let! envelope := JSON_stringify_forward to from data in
      let s := socket_send envelope s in
      Ok (settle p (Fulfilled VUndefined) s)
  end.

(** Modelled from the spec: the class [Barrier] of [../../async] is not
    part of the sources at hand.  The gate starts closed.  [run(action)]
    executes the action at once when the gate is open and queues it
    otherwise; [pause()] closes the gate; [resume()] opens it and drains
    the queue in arrival order.  The promise returned by [run] carries the
    result of the action, a thrown exception included. *)
Definition Barrier_new : Barrier := mkBarrier true [].

(** Modelled from the spec: how [Barrier] runs one admitted action.  What
    the action returns, or the exception it raises, decides the promise
    that [run] handed out. *)
Definition execute (ap : action * promise) (s : NetworkHub) : NetworkHub :=
  match body (fst ap) (snd ap) s with
  | Ok s' => s'
  | Throw e => settle (snd ap) (Rejected (Thrown e)) s
  end.

(** Modelled from the spec: the drain of [Barrier.resume], in arrival
    order. *)
Fixpoint drain (queue : list (action * promise)) (s : NetworkHub) : NetworkHub :=
  match queue with
  | [] => s
  | ap :: rest => drain rest (execute ap s)
  end.

(** Modelled from the spec: [Barrier.run(action)]. *)
Definition barrier_run (a : action) (s : NetworkHub) : promise * NetworkHub :=
  let p := next_promise s in
  let s := set_next_promise (S p) s in
  if paused (barrier s)
  then (p, set_barrier (mkBarrier true (awaiters (barrier s) ++ [(a, p)])) s)
  else (p, execute (a, p) s).

(** Modelled from the spec: [Barrier.pause()]. *)
Definition barrier_pause (s : NetworkHub) : NetworkHub :=
  set_barrier (mkBarrier true (awaiters (barrier s))) s.

(** Modelled from the spec: [Barrier.resume()]. *)
Definition barrier_resume (s : NetworkHub) : NetworkHub :=
  drain (awaiters (barrier s)) (set_barrier (mkBarrier false []) s).

(** ** The class NetworkHub *)

(** [new NetworkHub(endpoint)] *)
Definition constructor : NetworkHub :=
  mkHub (mkSocket [] false) Barrier_new ∅ VUndefined 0 [] ∅ 0%nat [].

Definition configuration (s : NetworkHub) : promise * NetworkHub :=
  barrier_run Configuration s.

Definition address (s : NetworkHub) : promise * NetworkHub :=
  barrier_run Address s.

Definition register (hostname : string) (s : NetworkHub) : promise * NetworkHub :=
  barrier_run (Register hostname) s.

Definition lookup (hostname : string) (s : NetworkHub) : promise * NetworkHub :=
  barrier_run (Lookup hostname) s.


Definition onBinding (message : value) (s : NetworkHub) : result NetworkHub :=
  Ok (barrier_resume (set_binding message s)).

Definition onForward (message : value) (s : NetworkHub) : result NetworkHub :=
  Ok (emit "forward" message s).

Definition onRegisterOk (message : value) (s : NetworkHub) : result NetworkHub :=
  let! id := get message "request_id" in
  Ok (deferred_resolve id message s).

Definition onRegisterFail (message : value) (s : NetworkHub) : result NetworkHub :=
  let! id := get message "request_id" in
  let! why := get message "reason" in
  Ok (deferred_reject id why s).

Definition onLookupOk (message : value) (s : NetworkHub) : result NetworkHub :=
  let! id := get message "request_id" in
  Ok (deferred_resolve id message s).

Definition onLookupFail (message : value) (s : NetworkHub) : result NetworkHub :=
  let! id := get message "request_id" in
  let! why := get message "reason" in
  Ok (deferred_reject id why s).

(** The [switch] of [onMessage]: cases compare with [===], so only a
    string can match, and a tag without a case falls through. *)
Definition dispatch (tag : value) (message : value) (s : NetworkHub) : result NetworkHub :=
  match tag with
  | VStr t =>
      if String.eqb t "binding" then onBinding message s
      else if String.eqb t "forward" then onForward message s
      else if String.eqb t "register-ok" then onRegisterOk message s
      else if String.eqb t "register-fail" then onRegisterFail message s
      else if String.eqb t "lookup-ok" then onLookupOk message s
      else if String.eqb t "lookup-fail" then onLookupFail message s
      else Ok s
  | _ => Ok s
  end.

Definition onMessage (event_data : frame) (s : NetworkHub) : result NetworkHub :=
  let! message := JSON_parse event_data in
  let! tag := get message "type" in
  dispatch tag message s.

Definition onClose (s : NetworkHub) : NetworkHub :=
  barrier_pause s.

Definition onError (error : value) (s : NetworkHub) : NetworkHub :=
  emit "error" error s.

Definition dispose (s : NetworkHub) : NetworkHub :=
  set_socket (mkSocket (sent (socket s)) true) s.

(** ** Runs of a client *)

(** What can happen to an instance: a call of a public method, or one of
    the three socket events the constructor listens to. *)
Inductive input : Type :=
| Call (a : action)
| SocketMessage (data : frame)
| SocketError (error : value)
| SocketClose
| Dispose.

(** An exception that leaves a listener is reported by the event target
    and the next event is dispatched as usual. *)
Definition report (e : exn) (s : NetworkHub) : NetworkHub :=
  set_uncaught (uncaught s ++ [e]) s.

Definition step (s : NetworkHub) (i : input) : NetworkHub :=
  match i with
  | Call a => snd (barrier_run a s)
  | SocketMessage data =>
      match onMessage data s with
      | Ok s' => s'
      | Throw e => report e s
      end
  | SocketError error => onError error s
  | SocketClose => onClose s
  | Dispose => dispose s
  end.

Definition run (inputs : list input) (s : NetworkHub) : NetworkHub :=
  fold_left step inputs s.

(** ** Sample data *)

Definition handshake (addr : string) : value :=
  VObj [("type", VStr "binding"); ("address", VStr addr); ("configuration", VObj [])].

(** ** Which inputs are handshakes, which tags the protocol knows *)

(** The message types of the protocol (the union [Message]). *)
Definition known_tags : list string :=
  ["binding"; "forward"; "register"; "register-ok"; "register-fail";
   "lookup"; "lookup-ok"; "lookup-fail"].

(** A decoded message that [onMessage] hands to [onBinding]. *)
Definition is_handshake (message : value) : bool :=
  match get message "type" with
  | Ok (VStr t) => String.eqb t "binding"
  | _ => false
  end.

Definition is_handshake_input (i : input) : bool :=
  match i with
  | SocketMessage (Json message) => is_handshake message
  | _ => false
  end.

(** The handshake processed last in a run, [undefined] when there is none. *)
Definition last_handshake (inputs : list input) : value :=
  fold_left (fun b i =>
               match i with
               | SocketMessage (Json message) => if is_handshake message then message else b
               | _ => b
               end) inputs VUndefined.

(** The envelopes an action gives to the socket when it runs in [s]. *)
Definition frames_of (a : action) (s : NetworkHub) : list value :=
  match a with
  | Configuration | Address => []
  | Register hostname => [register_envelope (request_id s) hostname]
  | Lookup hostname => [lookup_envelope (request_id s) hostname]
  | Forward to data =>
      match get (binding s) "address" with
      | Ok from =>
          match JSON_stringify_forward to from data with
          | Ok envelope => [envelope]
          | Throw _ => []
          end
      | Throw _ => []
      end
  end.

(** How many envelopes each kind of call sends: one for [register],
    for [lookup] and for a [forward] whose data can be encoded, none for a
    [forward] whose data cannot, none for the accessors. *)
Definition sends_of (a : action) : nat :=
  match a with
  | Configuration | Address => 0
  | Register _ | Lookup _ | Forward _ (Plain _) => 1
  | Forward _ (BigInt _) | Forward _ Circular => 0
  end.

(** Whether an action draws an identifier from the counter. *)
Definition allocates (a : action) : bool :=
  match a with
  | Register _ | Lookup _ => true
  | _ => false
  end.

(** The correlation identifiers found in a log of sent envelopes, in the
    order they were sent. *)
Definition envelope_id (envelope : value) : list Z :=
  match get envelope "type", get envelope "request_id" with
  | Ok (VStr t), Ok (VNum id) =>
      if String.eqb t "register" || String.eqb t "lookup" then [id] else []
  | _, _ => []
  end.

Definition identifiers (log : list value) : list Z :=
  flat_map envelope_id log.

(** The state without the record of reported exceptions. *)
Definition forget_uncaught (s : NetworkHub) : NetworkHub := set_uncaught [] s.

(** The states in which the queued actions run during a drain, and the
    envelopes they send. *)
Fixpoint drain_states (queue : list (action * promise)) (s : NetworkHub) : list NetworkHub :=
  match queue with
  | [] => []
  | ap :: rest => s :: drain_states rest (execute ap s)
  end.

Fixpoint drain_frames (queue : list (action * promise)) (s : NetworkHub) : list value :=
  match queue with
  | [] => []
  | ap :: rest => frames_of (fst ap) s ++ drain_frames rest (execute ap s)
  end.

Definition is_object (v : value) : bool :=
  match v with
  | VObj _ => true
  | _ => false
  end.

(** Whether [JSON.stringify] can encode what the closure of an action
    sends: only a [forward] of a BigInt or of a circular structure
    cannot. *)
Definition encodable (a : action) : bool :=
  match a with
  | Forward _ (BigInt _) | Forward _ Circular => false
  | _ => true
  end.

(** An action that runs in [s] finds a binding it can read: both property
    reads succeed, and the body of the action returns, unless it is a
    [forward] of data that cannot be encoded, which raises the
    [TypeError] of the encoder. *)
Definition binding_serves (s : NetworkHub) : Prop :=
  (exists addr conf,
     get (binding s) "address" = Ok addr /\
     get (binding s) "configuration" = Ok conf) /\
  forall a p,
    (encodable a = true -> exists s', body a p s = Ok s') /\
    (encodable a = false -> body a p s = Throw TypeError).

(** ** The invariant of the correlation engine *)

(** Coherence of a queue of waiting calls with the counter, the
    correlation table, the settled promises and the next fresh handle:
    waiting and pending calls are distinct, issued and still undecided. *)
Record coherent (queue : list (action * promise)) (rid : Z)
    (table : gmap Z promise) (done : gmap promise outcome) (next : promise) : Prop := {
  coh_counter : 0 <= rid <= MAX_EXACT;
  coh_queue_fresh : forall a p, (a, p) ∈ queue -> (p < next)%nat /\ done !! p = None;
  coh_queue_nodup : NoDup (queue.*2);
  coh_table_fresh : forall k p, table !! k = Some p -> (p < next)%nat /\ done !! p = None;
  coh_table_inj : forall k j p, table !! k = Some p -> table !! j = Some p -> k = j;
  coh_table_below : forall k p, table !! k = Some p -> k < rid \/ rid = MAX_EXACT;
  coh_disjoint : forall k a p, table !! k = Some p -> (a, p) ∉ queue;
  coh_done_fresh : forall p, is_Some (done !! p) -> (p < next)%nat
}.

Record invariant (s : NetworkHub) : Prop := {
  inv_coherent :
    coherent (awaiters (barrier s)) (request_id s) (deferred s) (settled s) (next_promise s);
  inv_open_binding : paused (barrier s) = false -> is_object (binding s) = true;
  inv_open_queue : paused (barrier s) = false -> awaiters (barrier s) = [];
  inv_binding_shape : binding s = VUndefined \/ is_object (binding s) = true
}.

(** A run in which no handshake is processed. *)
Definition no_handshake (inputs : list input) : bool :=
  forallb (fun i => negb (is_handshake_input i)) inputs.

(** The envelopes sent by the step that follows a run. *)
Definition new_frames (inputs : list input) (i : input) : list value :=
  drop (length (sent (socket (run inputs constructor))))
       (sent (socket (run (inputs ++ [i]) constructor))).

Definition is_forward (envelope : value) : bool :=
  match get envelope "type" with
  | Ok (VStr t) => String.eqb t "forward"
  | _ => false
  end.

(** A client that has received its handshake and then issued 2^53
    register calls. *)
Definition exhausted : NetworkHub :=
  N.iter (2 ^ 53) (fun s => step s (Call (Register "alice")))
         (run [SocketMessage (Json (handshake "peer-42"))] constructor).

(** Whether the value read from [message.type] names a message type of
    the protocol. *)
Definition is_known_tag (tag : value) : bool :=
  match tag with
  | VStr t => existsb (String.eqb t) known_tags
  | _ => false
  end.

(** The tags of the success and of the failure responses. *)
Definition is_ok_tag (t : string) : bool :=
  String.eqb t "register-ok" || String.eqb t "lookup-ok".

Definition is_fail_tag (t : string) : bool :=
  String.eqb t "register-fail" || String.eqb t "lookup-fail".

(** The identifiers sent so far are what the counter has produced: the
    i-th one is [i], capped at 2^53, and the counter holds the next one. *)
Definition counted (s : NetworkHub) : Prop :=
  let ids := identifiers (sent (socket s)) in
  ids = (fun i : nat => Z.min (Z.of_nat i) MAX_EXACT) <$> seq 0 (length ids) /\
  request_id s = Z.min (Z.of_nat (length ids)) MAX_EXACT.

(** ** Vocabulary for the properties of whole runs *)

(** The event an input makes the client emit, if any. *)
Definition event_of (i : input) : list (string * value) :=
  match i with
  | SocketMessage (Json message) =>
      if is_forward message then [("forward", message)] else []
  | SocketError error => [("error", error)]
  | _ => []
  end.

Definition is_dispose_input (i : input) : bool :=
  match i with
  | Dispose => true
  | _ => false
  end.

(** Whether the gate is closed after a run that started with the gate in
    state [closed0]: a handshake opens it, a close notification closes it. *)
Definition gate_closed_after (closed0 : bool) (inputs : list input) : bool :=
  fold_left (fun g i =>
               if is_handshake_input i then false
               else match i with
                    | SocketClose => true
                    | _ => g
                    end) inputs closed0.

(** The tags that have a case in the [switch] of [onMessage]. *)
Definition handled_tags : list string :=
  ["binding"; "forward"; "register-ok"; "register-fail"; "lookup-ok"; "lookup-fail"].

Definition is_handled_tag (tag : value) : bool :=
  match tag with
  | VStr t => existsb (String.eqb t) handled_tags
  | _ => false
  end.

(** A decoded message that [onMessage] hands to one of the four response
    handlers. *)
Definition is_response (message : value) : bool :=
  match get message "type" with
  | Ok (VStr t) => is_ok_tag t || is_fail_tag t
  | _ => false
  end.

(** Whether an input is a response that carries the identifier [k]. *)
Definition answers (k : Z) (i : input) : bool :=
  match i with
  | SocketMessage (Json message) =>
      is_response message &&
      match get message "request_id" with
      | Ok (VNum j) => Z.eqb j k
      | _ => false
      end
  | _ => false
  end.

(** The number of envelopes the calls of a run are due to send, and the
    number still owed by the calls waiting in a queue. *)
Definition sends_due (inputs : list input) : nat :=
  sum_list ((fun i => match i with Call a => sends_of a | _ => 0%nat end) <$> inputs).

Definition sends_owed (queue : list (action * promise)) : nat :=
  sum_list (sends_of <$> queue.*1).

(** The queue entries of a batch of calls: the calls in order, with
    consecutive promises from [next] on. *)
Definition enqueue_from (next : promise) (actions : list action) : list (action * promise) :=
  zip actions (seq next (length actions)).

(** * Properties *)

(** ** Scenarios of the protocol *)

Example address_after_handshake :
  let '(p, s) := address (run [SocketMessage (Json (handshake "peer-42"))] constructor) in
  settled s !! p = Some (Fulfilled (VStr "peer-42")).
Proof. vm_compute. reflexivity. Qed.

Example register_scenario :
  let s := run [SocketMessage (Json (handshake "peer-42")); Call (Register "alice")] constructor in
  sent (socket s) = [register_envelope 0 "alice"].
Proof. vm_compute. reflexivity. Qed.

(** Two requests in flight, answered in the opposite order: each caller
    gets its own payload. *)
Example responses_out_of_order :
  let bob_ok := VObj [("type", VStr "register-ok"); ("request_id", VNum 0); ("quota", VNum 5)] in
  let carol_ok := VObj [("type", VStr "lookup-ok"); ("request_id", VNum 1);
                        ("addresses", VArr [VStr "peer-7"])] in
  let s := run [SocketMessage (Json (handshake "peer-42"));
                Call (Register "bob"); Call (Lookup "carol");
                SocketMessage (Json carol_ok); SocketMessage (Json bob_ok)] constructor in
  sent (socket s) = [register_envelope 0 "bob"; lookup_envelope 1 "carol"] /\
  settled s !! 0%nat = Some (Fulfilled bob_ok) /\
  settled s !! 1%nat = Some (Fulfilled carol_ok) /\
  deferred s = ∅.
Proof. vm_compute. repeat split; reflexivity. Qed.

Example lookup_fails_with_reason :
  let s := run [SocketMessage (Json (handshake "peer-42")); Call (Lookup "dave");
                SocketMessage (Json (VObj [("type", VStr "lookup-fail");
                                           ("request_id", VNum 0);
                                           ("reason", VStr "not-found")]))] constructor in
  settled s !! 0%nat = Some (Rejected (Reason (VStr "not-found"))).
Proof. vm_compute. reflexivity. Qed.

Example inbound_forward_is_emitted :
  let envelope := forward_envelope "peer-42" (VStr "peer-7") (VObj [("hello", VNum 1)]) in
  emitted (run [SocketMessage (Json envelope)] constructor) = [("forward", envelope)].
Proof. reflexivity. Qed.

(** [JSON.parse] accepts the text [null]; reading [message.type] then
    raises. *)
Example null_message_raises (s : NetworkHub) :
  onMessage (Json VNull) s = Throw TypeError.
Proof. reflexivity. Qed.

(** [forward] of a BigInt on an open gate: [JSON.stringify] raises, so
    nothing reaches the socket and the promise is rejected. *)
Example forward_of_bigint_is_rejected :
  let s := run [SocketMessage (Json (handshake "peer-42"));
                Call (Forward "peer-7" (BigInt 10))] constructor in
  sent (socket s) = [] /\ settled s !! 0%nat = Some (Rejected (Thrown TypeError)).
Proof. vm_compute. split; reflexivity. Qed.

(** ** Elementary facts about the state updates *)

Ltac hub_simpl :=
  cbn [socket barrier deferred binding request_id emitted settled next_promise
       uncaught sent closed paused awaiters fst snd
       set_socket set_barrier set_deferred set_binding set_request_id
       set_emitted set_settled set_next_promise set_uncaught
       socket_send emit] in *.

Ltac unfold_settle := unfold settle; repeat case_match; hub_simpl.

Section SettleFacts.
Variables (p : promise) (o : outcome) (s : NetworkHub).

Lemma settle_socket : socket (settle p o s) = socket s.
Proof. unfold_settle; reflexivity. Qed.
Lemma settle_barrier : barrier (settle p o s) = barrier s.
Proof. unfold_settle; reflexivity. Qed.
Lemma settle_deferred : deferred (settle p o s) = deferred s.
Proof. unfold_settle; reflexivity. Qed.
Lemma settle_binding : binding (settle p o s) = binding s.
Proof. unfold_settle; reflexivity. Qed.
Lemma settle_request_id : request_id (settle p o s) = request_id s.
Proof. unfold_settle; reflexivity. Qed.
Lemma settle_emitted : emitted (settle p o s) = emitted s.
Proof. unfold_settle; reflexivity. Qed.
Lemma settle_next_promise : next_promise (settle p o s) = next_promise s.
Proof. unfold_settle; reflexivity. Qed.
Lemma settle_uncaught : uncaught (settle p o s) = uncaught s.
Proof. unfold_settle; reflexivity. Qed.

Lemma settle_pending :
  settled s !! p = None -> settled (settle p o s) !! p = Some o.
Proof. intros H. unfold settle. rewrite H. hub_simpl. apply lookup_insert_eq. Qed.

Lemma settle_other (q : promise) :
  q <> p -> settled (settle p o s) !! q = settled s !! q.
Proof.
  intros H. unfold settle. case_match; [reflexivity|].
  hub_simpl. by rewrite lookup_insert_ne.
Qed.

Lemma settle_keeps (q : promise) (o' : outcome) :
  settled s !! q = Some o' -> settled (settle p o s) !! q = Some o'.
Proof.
  intros H. destruct (decide (q = p)) as [->|Hne].
  - unfold settle. by rewrite H.
  - by rewrite settle_other.
Qed.

Lemma settle_domain (q : promise) :
  is_Some (settled (settle p o s) !! q) -> q = p \/ is_Some (settled s !! q).
Proof.
  destruct (decide (q = p)) as [->|Hne]; [by left|].
  rewrite settle_other by done. by right.
Qed.
End SettleFacts.

Create Rewrite HintDb hub.
#[local] Hint Rewrite settle_socket settle_barrier settle_deferred settle_binding
  settle_request_id settle_emitted settle_next_promise settle_uncaught : hub.

Section WaitFacts.
Variables (id : Z) (p : promise) (s : NetworkHub).

Lemma deferred_wait_socket : socket (deferred_wait id p s) = socket s.
Proof. unfold deferred_wait. case_match; autorewrite with hub; reflexivity. Qed.
Lemma deferred_wait_barrier : barrier (deferred_wait id p s) = barrier s.
Proof. unfold deferred_wait. case_match; autorewrite with hub; reflexivity. Qed.
Lemma deferred_wait_binding : binding (deferred_wait id p s) = binding s.
Proof. unfold deferred_wait. case_match; autorewrite with hub; reflexivity. Qed.
Lemma deferred_wait_request_id : request_id (deferred_wait id p s) = request_id s.
Proof. unfold deferred_wait. case_match; autorewrite with hub; reflexivity. Qed.
Lemma deferred_wait_emitted : emitted (deferred_wait id p s) = emitted s.
Proof. unfold deferred_wait. case_match; autorewrite with hub; reflexivity. Qed.
Lemma deferred_wait_next_promise : next_promise (deferred_wait id p s) = next_promise s.
Proof. unfold deferred_wait. case_match; autorewrite with hub; reflexivity. Qed.
Lemma deferred_wait_uncaught : uncaught (deferred_wait id p s) = uncaught s.
Proof. unfold deferred_wait. case_match; autorewrite with hub; reflexivity. Qed.

Lemma deferred_wait_fresh :
  deferred s !! id = None ->
  deferred (deferred_wait id p s) = <[id := p]> (deferred s) /\
  settled (deferred_wait id p s) = settled s.
Proof. intros H. unfold deferred_wait. rewrite H. split; reflexivity. Qed.

Lemma deferred_wait_taken (q : promise) :
  deferred s !! id = Some q ->
  deferred_wait id p s = settle p (Rejected (Thrown AlreadyWaiting)) s.
Proof. intros H. unfold deferred_wait. by rewrite H. Qed.
End WaitFacts.

#[local] Hint Rewrite deferred_wait_socket deferred_wait_barrier deferred_wait_binding
  deferred_wait_request_id deferred_wait_emitted deferred_wait_next_promise
  deferred_wait_uncaught : hub.

Section CompleteFacts.
Variables (id : value) (o : outcome) (s : NetworkHub).

Ltac complete_frame :=
  unfold deferred_complete; repeat case_match; autorewrite with hub; reflexivity.

Lemma deferred_complete_socket : socket (deferred_complete id o s) = socket s.
Proof. complete_frame. Qed.
Lemma deferred_complete_barrier : barrier (deferred_complete id o s) = barrier s.
Proof. complete_frame. Qed.
Lemma deferred_complete_binding : binding (deferred_complete id o s) = binding s.
Proof. complete_frame. Qed.
Lemma deferred_complete_request_id : request_id (deferred_complete id o s) = request_id s.
Proof. complete_frame. Qed.
Lemma deferred_complete_emitted : emitted (deferred_complete id o s) = emitted s.
Proof. complete_frame. Qed.
Lemma deferred_complete_next_promise :
  next_promise (deferred_complete id o s) = next_promise s.
Proof. complete_frame. Qed.
Lemma deferred_complete_uncaught : uncaught (deferred_complete id o s) = uncaught s.
Proof. complete_frame. Qed.
End CompleteFacts.

#[local] Hint Rewrite deferred_complete_socket deferred_complete_barrier
  deferred_complete_binding deferred_complete_request_id deferred_complete_emitted
  deferred_complete_next_promise deferred_complete_uncaught : hub.

(** ** What running one action changes *)

Ltac execute_cases ap :=
  destruct ap as [[] ?]; unfold execute, body, bind; hub_simpl;
  repeat case_match; simplify_eq; hub_simpl; autorewrite with hub; hub_simpl.

Section ExecuteFacts.
Variables (ap : action * promise) (s : NetworkHub).

Lemma execute_sent :
  sent (socket (execute ap s)) = sent (socket s) ++ frames_of (fst ap) s.
Proof.
  unfold frames_of. execute_cases ap; by rewrite ?app_nil_r.
Qed.

Lemma execute_closed : closed (socket (execute ap s)) = closed (socket s).
Proof. execute_cases ap; reflexivity. Qed.
Lemma execute_barrier : barrier (execute ap s) = barrier s.
Proof. execute_cases ap; reflexivity. Qed.
Lemma execute_binding : binding (execute ap s) = binding s.
Proof. execute_cases ap; reflexivity. Qed.
Lemma execute_emitted : emitted (execute ap s) = emitted s.
Proof. execute_cases ap; reflexivity. Qed.
Lemma execute_next_promise : next_promise (execute ap s) = next_promise s.
Proof. execute_cases ap; reflexivity. Qed.
Lemma execute_uncaught : uncaught (execute ap s) = uncaught s.
Proof. execute_cases ap; reflexivity. Qed.

Lemma execute_request_id :
  request_id (execute ap s) =
  if allocates (fst ap) then number_succ (request_id s) else request_id s.
Proof. execute_cases ap; reflexivity. Qed.

Lemma frames_of_length :
  (exists fields, binding s = VObj fields) ->
  length (frames_of (fst ap) s) = sends_of (fst ap).
Proof.
  intros [fields Hb]. destruct ap as [[| | | |to []] ?]; simpl; rewrite ?Hb; reflexivity.
Qed.
End ExecuteFacts.

#[local] Hint Rewrite execute_closed execute_barrier execute_binding execute_emitted
  execute_next_promise execute_uncaught : hub.

(** Draining a queue runs its actions one after the other. *)
Lemma drain_app (q1 q2 : list (action * promise)) (s : NetworkHub) :
  drain (q1 ++ q2) s = drain q2 (drain q1 s).
Proof. revert s. induction q1 as [|ap q1 IH]; intros s; simpl; [reflexivity|apply IH]. Qed.

Section DrainFacts.
Variable queue : list (action * promise).

Lemma drain_barrier (s : NetworkHub) : barrier (drain queue s) = barrier s.
Proof.
  revert s. induction queue as [|ap q IH]; intros s; simpl; [reflexivity|].
  rewrite IH. apply execute_barrier.
Qed.
Lemma drain_binding (s : NetworkHub) : binding (drain queue s) = binding s.
Proof.
  revert s. induction queue as [|ap q IH]; intros s; simpl; [reflexivity|].
  rewrite IH. apply execute_binding.
Qed.
Lemma drain_emitted (s : NetworkHub) : emitted (drain queue s) = emitted s.
Proof.
  revert s. induction queue as [|ap q IH]; intros s; simpl; [reflexivity|].
  rewrite IH. apply execute_emitted.
Qed.
Lemma drain_next_promise (s : NetworkHub) : next_promise (drain queue s) = next_promise s.
Proof.
  revert s. induction queue as [|ap q IH]; intros s; simpl; [reflexivity|].
  rewrite IH. apply execute_next_promise.
Qed.
Lemma drain_uncaught (s : NetworkHub) : uncaught (drain queue s) = uncaught s.
Proof.
  revert s. induction queue as [|ap q IH]; intros s; simpl; [reflexivity|].
  rewrite IH. apply execute_uncaught.
Qed.
Lemma drain_closed (s : NetworkHub) : closed (socket (drain queue s)) = closed (socket s).
Proof.
  revert s. induction queue as [|ap q IH]; intros s; simpl; [reflexivity|].
  rewrite IH. apply execute_closed.
Qed.
End DrainFacts.

#[local] Hint Rewrite drain_barrier drain_binding drain_emitted drain_next_promise
  drain_uncaught drain_closed : hub.

Lemma drain_sent (queue : list (action * promise)) (s : NetworkHub) :
  sent (socket (drain queue s)) = sent (socket s) ++ drain_frames queue s.
Proof.
  revert s. induction queue as [|ap q IH]; intros s; simpl.
  - by rewrite app_nil_r.
  - by rewrite IH, execute_sent, app_assoc.
Qed.

Lemma drain_states_binding (queue : list (action * promise)) (s : NetworkHub) :
  Forall (fun s' => binding s' = binding s) (drain_states queue s).
Proof.
  revert s. induction queue as [|ap q IH]; intros s; simpl; constructor; [reflexivity|].
  eapply Forall_impl; [apply IH|]. intros s' ->. apply execute_binding.
Qed.

Lemma drain_frames_length (queue : list (action * promise)) (s : NetworkHub) :
  (exists fields, binding s = VObj fields) ->
  length (drain_frames queue s) = sum_list (sends_of <$> queue.*1).
Proof.
  revert s. induction queue as [|ap q IH]; intros s Hb; simpl; [reflexivity|].
  rewrite length_app, frames_of_length by done. f_equal.
  apply IH. by rewrite execute_binding.
Qed.

(** ** Preservation of coherence *)

Lemma number_succ_range (n : Z) :
  0 <= n <= MAX_EXACT -> 0 <= number_succ n <= MAX_EXACT.
Proof. unfold number_succ. intros H. case_match; lia. Qed.

Section Coherence.
Variables (rid : Z) (table : gmap Z promise) (done : gmap promise outcome)
          (next : promise).

Lemma coherent_settle a p o q :
  coherent ((a, p) :: q) rid table done next ->
  coherent q rid table (<[p := o]> done) next.
Proof.
  intros [Hc Hq Hn Ht Hi Hb Hd Hs].
  apply NoDup_cons in Hn as [Hp Hn].
  assert (Hpq : forall a', (a', p) ∉ q).
  { intros a' Hin. apply Hp. apply list_elem_of_fmap. by exists (a', p). }
  destruct (Hq a p) as [Hlt _]; [left|].
  split; try done.
  - intros a' p' Hin. destruct (Hq a' p') as [? ?]; [by right|].
    split; [done|]. rewrite lookup_insert_ne; [done|].
    intros ->. by apply (Hpq a').
  - intros k p' Hk. destruct (Ht k p' Hk) as [? ?]. split; [done|].
    rewrite lookup_insert_ne; [done|]. intros ->.
    apply (Hd k a p' Hk). left.
  - intros k a' p' Hk Hin. apply (Hd k a' p' Hk). by right.
  - intros p'. rewrite lookup_insert. case_decide; subst; [done|]. apply Hs.
Qed.

Lemma coherent_wait a p id q :
  coherent ((a, p) :: q) rid table done next ->
  table !! id = None -> id < rid \/ rid = MAX_EXACT ->
  coherent q rid (<[id := p]> table) done next.
Proof.
  intros [Hc Hq Hn Ht Hi Hb Hd Hs] Hid Hlt.
  apply NoDup_cons in Hn as [Hp Hn].
  assert (Hpt : forall k, table !! k <> Some p).
  { intros k Hk. apply (Hd k a p Hk). left. }
  split; try done.
  - intros a' p' Hin. apply (Hq a' p'). by right.
  - intros k p'. rewrite lookup_insert. case_decide; subst.
    + intros [= <-]. apply (Hq a p). left.
    + apply Ht.
  - intros k j p'. rewrite !lookup_insert.
    repeat case_decide; subst; try done.
    + intros [= <-] Hj. by destruct (Hpt j).
    + intros Hk [= <-]. by destruct (Hpt k).
    + apply Hi.
  - intros k p'. rewrite lookup_insert. case_decide; subst; [done|apply Hb].
  - intros k a' p'. rewrite lookup_insert. case_decide; subst.
    + intros [= <-] Hin. apply Hp. apply list_elem_of_fmap. by exists (a', p).
    + intros Hk Hin. apply (Hd k a' p' Hk). by right.
Qed.

Lemma coherent_counter q :
  coherent q rid table done next ->
  coherent q (number_succ rid) table done next.
Proof.
  intros [Hc Hq Hn Ht Hi Hb Hd Hs]. split; try done.
  - by apply number_succ_range.
  - intros k p Hk. unfold number_succ. destruct (Hb k p Hk); case_match; lia.
Qed.

Lemma coherent_enqueue a q :
  coherent q rid table done next ->
  coherent (q ++ [(a, next)]) rid table done (S next).
Proof.
  intros [Hc Hq Hn Ht Hi Hb Hd Hs]. split; try done.
  - intros a' p Hin. apply elem_of_app in Hin as [Hin|Hin].
    + destruct (Hq a' p Hin). split; [lia|done].
    + apply list_elem_of_singleton in Hin; injection Hin as -> ->. split; [lia|].
      destruct (done !! next) eqn:E; [|done].
      assert (next < next)%nat by (apply Hs; eauto). lia.
  - rewrite fmap_app. apply NoDup_app. split; [done|]. split.
    + intros p Hp Hin. apply list_elem_of_singleton in Hin. simpl in Hin.
      apply list_elem_of_fmap in Hp as [[a' p'] [Hp Hin']]. simpl in Hp.
      destruct (Hq a' p' Hin'). lia.
    + apply NoDup_singleton.
  - intros k p Hk. destruct (Ht k p Hk). split; [lia|done].
  - intros k a' p Hk Hin. apply elem_of_app in Hin as [Hin|Hin].
    + by apply (Hd k a' p Hk).
    + apply list_elem_of_singleton in Hin; injection Hin as -> ->.
      destruct (Ht k next Hk). lia.
  - intros p Hp. specialize (Hs p Hp). lia.
Qed.

Lemma coherent_complete k p o q :
  coherent q rid table done next ->
  table !! k = Some p ->
  coherent q rid (delete k table) (<[p := o]> done) next.
Proof.
  intros [Hc Hq Hn Ht Hi Hb Hd Hs] Hk.
  destruct (Ht k p Hk) as [Hlt Hpend].
  split; try done.
  - intros a' p' Hin. destruct (Hq a' p' Hin). split; [done|].
    rewrite lookup_insert_ne; [done|]. intros ->. by apply (Hd k a' p' Hk).
  - intros j p'. rewrite lookup_delete. case_decide; [done|]. intros Hj.
    destruct (Ht j p' Hj). split; [done|].
    rewrite lookup_insert_ne; [done|]. intros ->. by destruct (Hi k j p' Hk Hj).
  - intros i j p'. rewrite !lookup_delete. repeat case_decide; try done. apply Hi.
  - intros j p'. rewrite lookup_delete. case_decide; [done|]. apply Hb.
  - intros j a' p'. rewrite lookup_delete. case_decide; [done|]. apply Hd.
  - intros p'. rewrite lookup_insert. case_decide; subst; [done|]. apply Hs.
Qed.

Lemma coherent_skip a p q :
  coherent ((a, p) :: q) rid table done next ->
  done !! p = None /\ (p < next)%nat.
Proof. intros [Hc Hq Hn Ht Hi Hb Hd Hs]. destruct (Hq a p); [left|done]. Qed.
End Coherence.

Local Abbreviation coh q s :=
  (coherent q (request_id s) (deferred s) (settled s) (next_promise s)).

Lemma settle_coherent a p o q (s : NetworkHub) :
  coh ((a, p) :: q) s -> coh q (settle p o s).
Proof.
  intros H. destruct (coherent_skip _ _ _ _ _ _ _ H) as [Hp _].
  unfold settle. rewrite Hp. hub_simpl. by eapply coherent_settle.
Qed.

Lemma number_succ_above (n : Z) :
  0 <= n <= MAX_EXACT -> n < number_succ n \/ number_succ n = MAX_EXACT.
Proof. unfold number_succ. intros H. case_match; lia. Qed.

Lemma allocate_coherent a p q (s : NetworkHub) (envelope : value) :
  coh ((a, p) :: q) s ->
  coh q (deferred_wait (request_id s) p
           (socket_send envelope (set_request_id (number_succ (request_id s)) s))).
Proof.
  intros H. pose proof (coh_counter _ _ _ _ _ H) as Hc.
  apply coherent_counter in H.
  unfold deferred_wait. hub_simpl.
  destruct (deferred s !! request_id s) eqn:E.
  - by apply (settle_coherent a p _ q
                (socket_send envelope (set_request_id (number_succ (request_id s)) s))).
  - hub_simpl. eapply coherent_wait; [exact H|exact E|by apply number_succ_above].
Qed.

Lemma execute_coherent a p q (s : NetworkHub) :
  coh ((a, p) :: q) s -> coh q (execute (a, p) s).
Proof.
  intros H.
  destruct a as [| |hostname|hostname|to data]; unfold execute, body, bind; hub_simpl.
  - destruct (get (binding s) _); eapply settle_coherent; exact H.
  - destruct (get (binding s) _); eapply settle_coherent; exact H.
  - by apply (allocate_coherent (Register hostname) p q).
  - by apply (allocate_coherent (Lookup hostname) p q).
  - destruct (get (binding s) _) as [from|e];
      [destruct (JSON_stringify_forward to from data)|];
      eapply settle_coherent; exact H.
Qed.

Lemma drain_coherent q (s : NetworkHub) :
  coh q s -> coh [] (drain q s).
Proof.
  revert s. induction q as [|[a p] q IH]; intros s H; simpl; [done|].
  apply IH. by apply execute_coherent.
Qed.

Lemma deferred_complete_coherent id o q (s : NetworkHub) :
  coh q s -> coh q (deferred_complete id o s).
Proof.
  intros H. unfold deferred_complete.
  destruct id as [| | |k| | |]; try done.
  destruct (deferred s !! k) as [p|] eqn:E; [|done].
  destruct (coh_table_fresh _ _ _ _ _ H k p E) as [_ Hp].
  unfold settle. hub_simpl. rewrite Hp. hub_simpl.
  by apply coherent_complete.
Qed.

(** A message that carries the tag [binding] is an object. *)
Lemma handshake_is_object (message : value) :
  is_handshake message = true -> is_object message = true.
Proof. unfold is_handshake. destruct message; simpl; done. Qed.

Lemma dispatch_handshake (message : value) (s : NetworkHub) :
  is_handshake message = true ->
  onMessage (Json message) s = Ok (barrier_resume (set_binding message s)).
Proof.
  unfold is_handshake, onMessage. simpl.
  destruct (get message "type") as [[]|]; simpl; try done.
  intros ->. reflexivity.
Qed.

Lemma invariant_constructor : invariant constructor.
Proof.
  split; simpl; try done; [|by left].
  split; try done.
  - intros a p Hin. by apply elem_of_nil in Hin.
  - constructor.
  - intros p [? H]. by rewrite lookup_empty in H.
Qed.

(** ** The invariant holds in every run *)

(** The four things [onMessage] can do to the state when it returns. *)
Lemma onMessage_cases (message : value) (s s' : NetworkHub) :
  onMessage (Json message) s = Ok s' ->
  (is_handshake message = true /\ s' = barrier_resume (set_binding message s)) \/
  (is_handshake message = false /\
   (s' = emit "forward" message s \/
    (exists id o, s' = deferred_complete id o s) \/
    s' = s)).
Proof.
  unfold onMessage, is_handshake. simpl.
  destruct (get message "type") as [tag|e] eqn:Htag; simpl; [|done].
  destruct tag as [| | | |t| |]; simpl;
    try (intros [= <-]; right; split; [done|]; by right; right).
  destruct (String.eqb t "binding") eqn:E1; intros H;
    [injection H as <-; left; by split|].
  right. split; [done|].
  repeat case_match;
    unfold onForward, onRegisterOk, onRegisterFail, onLookupOk, onLookupFail,
           deferred_resolve, deferred_reject, bind in H;
    repeat case_match; simplify_eq; eauto.
Qed.

Lemma invariant_call (a : action) (s : NetworkHub) :
  invariant s -> invariant (snd (barrier_run a s)).
Proof.
  intros [Hc Hb Hq Hs]. unfold barrier_run. hub_simpl.
  destruct (paused (barrier s)) eqn:E; hub_simpl.
  - split; hub_simpl; try done. by apply coherent_enqueue.
  - specialize (Hq eq_refl). specialize (Hb eq_refl).
    rewrite Hq in Hc. apply (coherent_enqueue _ _ _ _ a) in Hc.
    apply (execute_coherent a (next_promise s) []
             (set_next_promise (S (next_promise s)) s)) in Hc.
    split; rewrite ?execute_barrier, ?execute_binding; hub_simpl; try done.
    by rewrite Hq.
Qed.

Lemma invariant_resume (message : value) (s : NetworkHub) :
  invariant s -> is_object message = true ->
  invariant (barrier_resume (set_binding message s)).
Proof.
  intros [Hc Hb Hq Hs] Hm. unfold barrier_resume. hub_simpl.
  apply (drain_coherent _ (set_barrier (mkBarrier false []) (set_binding message s)))
    in Hc.
  split; rewrite ?drain_barrier, ?drain_binding; hub_simpl; try done.
  by right.
Qed.

Lemma invariant_step (s : NetworkHub) (i : input) :
  invariant s -> invariant (step s i).
Proof.
  intros H. destruct i as [a|[|message]|error| |]; simpl.
  - by apply invariant_call.
  - by destruct H.
  - destruct (onMessage (Json message) s) as [s'|e] eqn:E; [|by destruct H].
    apply onMessage_cases in E as [[Hm ->]|[_ [->|[(id & o & ->)| ->]]]]; try done.
    + apply invariant_resume; [done|by apply handshake_is_object].
    + by destruct H.
    + destruct H as [Hc Hb Hq Hs].
      apply (deferred_complete_coherent id o) in Hc.
      split; rewrite ?deferred_complete_barrier, ?deferred_complete_binding; done.
  - by destruct H.
  - by destruct H.
  - by destruct H.
Qed.

Lemma run_app (xs ys : list input) (s : NetworkHub) :
  run (xs ++ ys) s = run ys (run xs s).
Proof. apply fold_left_app. Qed.

Lemma run_snoc (xs : list input) (i : input) (s : NetworkHub) :
  run (xs ++ [i]) s = step (run xs s) i.
Proof. by rewrite run_app. Qed.

Lemma invariant_run (inputs : list input) (s : NetworkHub) :
  invariant s -> invariant (run inputs s).
Proof.
  revert s. induction inputs as [|i inputs IH]; intros s H; simpl; [done|].
  apply IH. by apply invariant_step.
Qed.

Lemma invariant_reachable (inputs : list input) : invariant (run inputs constructor).
Proof. apply invariant_run, invariant_constructor. Qed.

(** ** While the gate is closed *)

(** Without a handshake a closed gate stays closed: calls pile up in the
    queue and neither the socket, the binding nor the counter moves. *)
Lemma step_closed (s : NetworkHub) (i : input) :
  paused (barrier s) = true -> is_handshake_input i = false ->
  paused (barrier (step s i)) = true /\
  sent (socket (step s i)) = sent (socket s) /\
  binding (step s i) = binding s /\
  request_id (step s i) = request_id s /\
  awaiters (barrier (step s i)) =
    awaiters (barrier s) ++
    match i with Call a => [(a, next_promise s)] | _ => [] end.
Proof.
  intros Hp Hi. destruct i as [a|[|message]|error| |]; simpl in *;
    rewrite ?app_nil_r; try done.
  - unfold barrier_run. hub_simpl. rewrite Hp. done.
  - destruct (onMessage (Json message) s) as [s'|e] eqn:E; [|done].
    apply onMessage_cases in E as [[Hm _]|[_ [->|[(id & o & ->)| ->]]]];
      autorewrite with hub; try done.
    congruence.
Qed.

Lemma run_closed (inputs : list input) (s : NetworkHub) :
  paused (barrier s) = true -> no_handshake inputs = true ->
  paused (barrier (run inputs s)) = true /\
  sent (socket (run inputs s)) = sent (socket s) /\
  binding (run inputs s) = binding s /\
  request_id (run inputs s) = request_id s /\
  exists later, awaiters (barrier (run inputs s)) = awaiters (barrier s) ++ later.
Proof.
  revert s. induction inputs as [|i inputs IH]; intros s Hp Hn; simpl in *.
  - repeat split; try done. exists []. by rewrite app_nil_r.
  - apply andb_prop in Hn as [Hi Hn]. apply negb_true_iff in Hi.
    destruct (step_closed s i Hp Hi) as (Hp' & Hs & Hb & Hr & Ha).
    destruct (IH (step s i) Hp' Hn) as (? & ? & ? & ? & later & Hl).
    repeat split; try congruence.
    eexists. rewrite Hl, Ha, <- app_assoc. reflexivity.
Qed.


Lemma drain_frames_app (q1 q2 : list (action * promise)) (s : NetworkHub) :
  drain_frames (q1 ++ q2) s = drain_frames q1 s ++ drain_frames q2 (drain q1 s).
Proof.
  revert s. induction q1 as [|ap q1 IH]; intros s; simpl; [reflexivity|].
  by rewrite IH, app_assoc.
Qed.

Lemma object_get (v : value) (k : string) :
  is_object v = true -> exists x, get v k = Ok x.
Proof. destruct v; simpl; try done. eauto. Qed.

Lemma body_returns (s : NetworkHub) :
  is_object (binding s) = true -> binding_serves s.
Proof.
  intros H. destruct (binding s) eqn:E; simpl in H; try done.
  split; [unfold binding_serves; rewrite E; simpl; eauto|].
  intros a p. split; intros Ha;
    destruct a as [| | | |to []]; unfold body, bind; rewrite ?E; simpl in *; eauto;
    done.
Qed.

(** ** Messages without a handler *)

Lemma dispatch_unknown (tag message : value) (s : NetworkHub) :
  is_known_tag tag = false -> dispatch tag message s = Ok s.
Proof.
  destruct tag as [| | | |t| |]; simpl; try done.
  intros H. repeat (apply orb_false_elim in H as [? H]).
  by repeat case_match.
Qed.

(** C8: processing an inbound message whose discriminant tag is not one
    of the known message types is a no-op.  [onMessage] returns without
    raising, and the whole state (the correlation table, the gate, the
    binding and everything else) is what it was. *)
Theorem unknown_tag_is_dropped (s : NetworkHub) (message tag : value) :
  get message "type" = Ok tag ->
  is_known_tag tag = false ->
  onMessage (Json message) s = Ok s /\
  step s (SocketMessage (Json message)) = s.
Proof.
  intros Htag Hunknown.
  assert (H : onMessage (Json message) s = Ok s).
  { unfold onMessage. simpl. rewrite Htag. simpl. by apply dispatch_unknown. }
  split; [exact H|]. simpl. by rewrite H.
Qed.

Lemma unknown_tag_is_dropped_witness :
  onMessage (Json (VObj [("type", VStr "ping"); ("request_id", VNum 0)])) constructor
    = Ok constructor /\
  step constructor (SocketMessage (Json (VObj [("type", VStr "ping"); ("request_id", VNum 0)])))
    = constructor.
Proof.
  apply (unknown_tag_is_dropped constructor
           (VObj [("type", VStr "ping"); ("request_id", VNum 0)]) (VStr "ping"));
    reflexivity.
Defined.

(** ** Connection loss *)

(** C6: processing a close notification pauses the gate and leaves the
    correlation table and every promise as they were: no pending entry is
    resolved or rejected.  A call issued afterwards stays in the queue,
    undecided, and sends nothing for as long as no handshake is processed. *)
Theorem close_pauses_and_keeps_pending
    (inputs : list input) (a : action) (later : list input) :
  no_handshake later = true ->
  let s := run inputs constructor in
  let p := fst (barrier_run a (onClose s)) in
  let s' := run later (snd (barrier_run a (onClose s))) in
  step s SocketClose = onClose s /\
  paused (barrier (onClose s)) = true /\
  deferred (onClose s) = deferred s /\
  settled (onClose s) = settled s /\
  paused (barrier s') = true /\
  (a, p) ∈ awaiters (barrier s') /\
  settled s' !! p = None /\
  sent (socket s') = sent (socket s).
Proof.
  intros Hlater s p s'.
  repeat split; try reflexivity.
  all: assert (Hq : snd (barrier_run a (onClose s)) =
                    set_barrier (mkBarrier true (awaiters (barrier s) ++ [(a, p)]))
                      (set_next_promise (S (next_promise s)) (onClose s)))
         by reflexivity.
  all: destruct (run_closed later _ (eq_refl : paused (barrier (snd (barrier_run a (onClose s)))) = true) Hlater)
         as (Hp & Hs & _ & _ & more & Hmore).
  - exact Hp.
  - subst s'. rewrite Hmore, Hq. hub_simpl. set_solver.
  - assert (Hinv : invariant s').
    { apply invariant_run, invariant_call.
      apply (invariant_step s SocketClose), invariant_reachable. }
    apply (coh_queue_fresh _ _ _ _ _ (inv_coherent _ Hinv) a p).
    subst s'. rewrite Hmore, Hq. hub_simpl. set_solver.
  - subst s'. rewrite Hs. reflexivity.
Qed.

Lemma close_pauses_and_keeps_pending_witness :
  let s := run [SocketMessage (Json (handshake "peer-42")); Call (Register "alice")]
               constructor in
  let p := fst (barrier_run (Lookup "bob") (onClose s)) in
  let s' := run [Call Address; SocketError VNull]
                (snd (barrier_run (Lookup "bob") (onClose s))) in
  step s SocketClose = onClose s /\
  paused (barrier (onClose s)) = true /\
  deferred (onClose s) = deferred s /\
  settled (onClose s) = settled s /\
  paused (barrier s') = true /\
  (Lookup "bob", p) ∈ awaiters (barrier s') /\
  settled s' !! p = None /\
  sent (socket s') = sent (socket s).
Proof.
  apply (close_pauses_and_keeps_pending
           [SocketMessage (Json (handshake "peer-42")); Call (Register "alice")]
           (Lookup "bob") [Call Address; SocketError VNull]).
  reflexivity.
Defined.

(** ** The binding is in place before the gate lets anything through *)

Lemma drain_states_object (queue : list (action * promise)) (s : NetworkHub) :
  is_object (binding s) = true ->
  Forall (fun s' => binding s' = binding s /\ binding_serves s')
         (drain_states queue s).
Proof.
  intros H. eapply Forall_impl; [apply drain_states_binding|].
  intros s' Hs'. split; [done|]. apply body_returns. by rewrite Hs'.
Qed.

(** C10: [onBinding] assigns the binding before it resumes the gate.  In
    every run, when the gate is open the binding is an object, so an
    action admitted at once reads a defined binding; and when a handshake
    is processed, each queued action runs in a state whose binding is that
    handshake message.  In both cases the reads of [address] and
    [configuration] succeed and the body of the action returns; the only
    body that raises is a [forward] of data [JSON.stringify] cannot
    encode, and it raises the encoder's [TypeError], not the property
    read's. *)
Theorem binding_defined_when_admitted (inputs : list input) :
  let s := run inputs constructor in
  (paused (barrier s) = false ->
     is_object (binding s) = true /\
     binding_serves (set_next_promise (S (next_promise s)) s)) /\
  (forall message, is_handshake message = true ->
     let opened := set_barrier (mkBarrier false []) (set_binding message s) in
     onMessage (Json message) s = Ok (drain (awaiters (barrier s)) opened) /\
     is_object message = true /\
     Forall (fun s' => binding s' = message /\ binding_serves s')
            (drain_states (awaiters (barrier s)) opened) /\
     binding (drain (awaiters (barrier s)) opened) = message /\
     paused (barrier (drain (awaiters (barrier s)) opened)) = false).
Proof.
  intros s. split.
  - intros Hopen.
    pose proof (inv_open_binding _ (invariant_reachable inputs) Hopen) as Hb.
    split; [exact Hb|]. by apply body_returns.
  - intros message Hm opened.
    pose proof (handshake_is_object _ Hm) as Hobj.
    repeat split.
    + by apply dispatch_handshake.
    + exact Hobj.
    + by apply (drain_states_object _ opened).
    + by rewrite drain_binding.
    + by rewrite drain_barrier.
Qed.

Lemma binding_defined_when_admitted_witness :
  let s := run [Call Address; Call (Forward "peer-7" (Plain VNull))] constructor in
  let opened := set_barrier (mkBarrier false []) (set_binding (handshake "peer-42") s) in
  Forall (fun s' => binding s' = handshake "peer-42" /\ binding_serves s')
         (drain_states (awaiters (barrier s)) opened).
Proof.
  apply (binding_defined_when_admitted
           [Call Address; Call (Forward "peer-7" (Plain VNull))]).
  reflexivity.
Defined.

(** ** Forward before the first handshake *)





(** ** Calls issued while the gate is closed *)

(** C1, as stated, fails for the accessors: [address()] issued on the
    closed gate of a fresh client proceeds once the handshake is
    processed (its promise is fulfilled with the address) and sends
    nothing at all, not exactly one envelope. *)
Lemma address_call_sends_nothing :
  let s := run [Call Address; SocketMessage (Json (handshake "peer-42"))] constructor in
  paused (barrier constructor) = true /\
  settled s !! 0%nat = Some (Fulfilled (VStr "peer-42")) /\
  sent (socket s) = [] /\
  length (sent (socket s)) <> 1%nat.
Proof. repeat split; try reflexivity. vm_compute. discriminate. Qed.

(** C1, amended: the gate starts closed and closes again on connection
    loss.  A call issued while it is closed is queued and nothing is sent
    on the socket for as long as no handshake is processed.  When the
    handshake is processed the queue is drained in order and the call
    runs once, between the calls queued before and after it: [register],
    [lookup] and a [forward] whose data [JSON.stringify] can encode then
    send exactly one envelope; a [forward] whose data it cannot encode (a
    BigInt, a circular structure) sends none, and [address] and
    [configuration] send none. *)
Theorem gated_call_sends_after_handshake
    (s : NetworkHub) (a : action) (inputs : list input) (message : value) :
  paused (barrier s) = true ->
  no_handshake inputs = true ->
  is_handshake message = true ->
  let p := fst (barrier_run a s) in
  let s1 := run inputs (snd (barrier_run a s)) in
  let s2 := step s1 (SocketMessage (Json message)) in
  let opened := set_barrier (mkBarrier false []) (set_binding message s1) in
  let turn := drain (awaiters (barrier s)) opened in
  paused (barrier constructor) = true /\
  paused (barrier (onClose s)) = true /\
  sent (socket s1) = sent (socket s) /\
  exists later,
    awaiters (barrier s1) = awaiters (barrier s) ++ (a, p) :: later /\
    sent (socket s2) =
      sent (socket s) ++ drain_frames (awaiters (barrier s)) opened
      ++ frames_of a turn ++ drain_frames later (execute (a, p) turn) /\
    length (frames_of a turn) = sends_of a /\
    sends_of a = match a with
                 | Register _ | Lookup _ | Forward _ (Plain _) => 1%nat
                 | Forward _ (BigInt _) | Forward _ Circular => 0%nat
                 | Configuration | Address => 0%nat
                 end.
Proof.
  intros Hp Hn Hm p s1 s2 opened turn.
  assert (Hq : snd (barrier_run a s) =
               set_barrier (mkBarrier true (awaiters (barrier s) ++ [(a, p)]))
                 (set_next_promise (S (next_promise s)) s)).
  { subst p. unfold barrier_run. hub_simpl. by rewrite Hp. }
  destruct (run_closed inputs (snd (barrier_run a s))) as (Hp1 & Hs1 & _ & _ & later & Hl);
    [by rewrite Hq|done|].
  fold s1 in Hp1, Hs1, Hl. rewrite Hq in Hs1, Hl. hub_simpl.
  rewrite <- app_assoc in Hl. simpl in Hl.
  repeat split; try done.
  exists later. split; [exact Hl|]. split; [|split].
  - subst s2. simpl. rewrite (dispatch_handshake _ _ Hm).
    unfold barrier_resume. hub_simpl. fold opened.
    rewrite drain_sent, Hl, drain_frames_app. subst opened. hub_simpl.
    rewrite Hs1. reflexivity.
  - apply (frames_of_length (a, p)).
    subst turn. rewrite drain_binding. subst opened. hub_simpl.
    apply handshake_is_object in Hm. destruct message; try done. eauto.
  - by destruct a as [| | | |to []].
Qed.

Lemma gated_call_sends_after_handshake_witness :
  let s := constructor in
  let a := Register "alice" in
  let inputs := [Call Address; SocketError VNull] in
  let message := handshake "peer-42" in
  let s1 := run inputs (snd (barrier_run a s)) in
  sent (socket s1) = sent (socket s).
Proof.
  pose proof (gated_call_sends_after_handshake constructor (Register "alice")
                [Call Address; SocketError VNull] (handshake "peer-42")
                eq_refl eq_refl eq_refl) as (_ & _ & H & _).
  exact H.
Defined.

(** ** Responses and the correlation table *)

Lemma onMessage_ok (message id : value) (t : string) (s : NetworkHub) :
  get message "type" = Ok (VStr t) -> is_ok_tag t = true ->
  get message "request_id" = Ok id ->
  onMessage (Json message) s = Ok (deferred_resolve id message s).
Proof.
  intros Ht Hok Hid. unfold onMessage. simpl. rewrite Ht. simpl.
  unfold is_ok_tag in Hok. apply orb_prop in Hok as [H|H];
    apply String.eqb_eq in H; subst t; simpl;
    unfold onRegisterOk, onLookupOk; by rewrite Hid.
Qed.

Lemma onMessage_fail (message id why : value) (t : string) (s : NetworkHub) :
  get message "type" = Ok (VStr t) -> is_fail_tag t = true ->
  get message "request_id" = Ok id -> get message "reason" = Ok why ->
  onMessage (Json message) s = Ok (deferred_reject id why s).
Proof.
  intros Ht Hfail Hid Hwhy. unfold onMessage. simpl. rewrite Ht. simpl.
  unfold is_fail_tag in Hfail. apply orb_prop in Hfail as [H|H];
    apply String.eqb_eq in H; subst t; simpl;
    unfold onRegisterFail, onLookupFail; by rewrite Hid, Hwhy.
Qed.

Lemma deferred_complete_pending (k : Z) (p : promise) (o : outcome) (s : NetworkHub) :
  deferred s !! k = Some p -> settled s !! p = None ->
  deferred_complete (VNum k) o s =
  set_settled (<[p := o]> (settled s)) (set_deferred (delete k (deferred s)) s).
Proof.
  intros Hk Hp. unfold deferred_complete, settle. rewrite Hk. hub_simpl. by rewrite Hp.
Qed.

Lemma deferred_complete_absent (k : Z) (o : outcome) (s : NetworkHub) :
  deferred s !! k = None -> deferred_complete (VNum k) o s = s.
Proof. intros Hk. unfold deferred_complete. by rewrite Hk. Qed.

(** Completions of two different identifiers can be applied in either
    order. *)
Lemma deferred_complete_commute (k1 k2 : Z) (o1 o2 : outcome) (s : NetworkHub) :
  invariant s -> k1 <> k2 ->
  deferred_complete (VNum k2) o2 (deferred_complete (VNum k1) o1 s) =
  deferred_complete (VNum k1) o1 (deferred_complete (VNum k2) o2 s).
Proof.
  intros [Hc _ _ _] Hne.
  destruct (deferred s !! k1) as [p1|] eqn:E1; destruct (deferred s !! k2) as [p2|] eqn:E2.
  - destruct (coh_table_fresh _ _ _ _ _ Hc k1 p1 E1) as [_ Hp1].
    destruct (coh_table_fresh _ _ _ _ _ Hc k2 p2 E2) as [_ Hp2].
    assert (Hpp : p1 <> p2).
    { intros ->. by apply Hne, (coh_table_inj _ _ _ _ _ Hc k1 k2 p2). }
    rewrite (deferred_complete_pending k1 p1 o1 s E1 Hp1).
    rewrite (deferred_complete_pending k2 p2 o2 s E2 Hp2).
    rewrite (deferred_complete_pending k2 p2); hub_simpl;
      [|by rewrite lookup_delete_ne|by rewrite lookup_insert_ne].
    rewrite (deferred_complete_pending k1 p1); hub_simpl;
      [|by rewrite lookup_delete_ne|by rewrite lookup_insert_ne].
    unfold set_settled, set_deferred. hub_simpl.
    by rewrite delete_delete, (insert_insert_ne (settled s) p2 p1).
  - destruct (coh_table_fresh _ _ _ _ _ Hc k1 p1 E1) as [_ Hp1].
    rewrite (deferred_complete_absent k2 o2 s E2).
    rewrite (deferred_complete_pending k1 p1 o1 s E1 Hp1).
    apply deferred_complete_absent. hub_simpl. by rewrite lookup_delete_ne.
  - destruct (coh_table_fresh _ _ _ _ _ Hc k2 p2 E2) as [_ Hp2].
    rewrite (deferred_complete_absent k1 o1 s E1).
    rewrite (deferred_complete_pending k2 p2 o2 s E2 Hp2).
    symmetry. apply deferred_complete_absent. hub_simpl. by rewrite lookup_delete_ne.
  - by rewrite (deferred_complete_absent k1 o1 s E1), (deferred_complete_absent k2 o2 s E2),
               (deferred_complete_absent k1 o1 s E1).
Qed.

(** What completing the slot of [k] does, in a state of a run. *)
Lemma deferred_complete_exactly (k : Z) (p : promise) (o : outcome) (s : NetworkHub) :
  invariant s -> deferred s !! k = Some p ->
  let s' := deferred_complete (VNum k) o s in
  settled s !! p = None /\
  settled s' !! p = Some o /\
  deferred s' !! k = None /\
  (forall j, j <> k -> deferred s' !! j = deferred s !! j) /\
  (forall q, q <> p -> settled s' !! q = settled s !! q) /\
  (forall j q, j <> k -> deferred s !! j = Some q -> settled s' !! q = None) /\
  socket s' = socket s /\ barrier s' = barrier s /\ binding s' = binding s /\
  request_id s' = request_id s /\ emitted s' = emitted s /\ uncaught s' = uncaught s.
Proof.
  intros [Hc _ _ _] Hk s'.
  destruct (coh_table_fresh _ _ _ _ _ Hc k p Hk) as [_ Hp].
  subst s'. rewrite (deferred_complete_pending k p o s Hk Hp). hub_simpl.
  repeat split; try done.
  - apply lookup_insert_eq.
  - apply lookup_delete_eq.
  - intros j Hj. by apply lookup_delete_ne.
  - intros q Hq. by apply lookup_insert_ne.
  - intros j q Hj Hjq.
    destruct (coh_table_fresh _ _ _ _ _ Hc j q Hjq) as [_ Hq].
    rewrite lookup_insert_ne; [done|].
    intros ->. by apply Hj, (coh_table_inj _ _ _ _ _ Hc j k q).
Qed.

(** A [register] or [lookup] admitted by the open gate sends the current
    value of the counter and waits in the slot of that identifier. *)
Lemma allocation_waits_on_its_identifier (inputs : list input) (a : action) :
  let s := run inputs constructor in
  let p := fst (barrier_run a s) in
  let s' := snd (barrier_run a s) in
  paused (barrier s) = false -> allocates a = true -> request_id s < MAX_EXACT ->
  sent (socket s') = sent (socket s) ++ frames_of a s /\
  identifiers (frames_of a s) = [request_id s] /\
  deferred s' !! request_id s = Some p /\
  settled s' !! p = None /\
  request_id s' = request_id s + 1.
Proof.
  intros s p s' Hopen Ha Hlt.
  pose proof (invariant_reachable inputs) as Hinv. fold s in Hinv.
  pose proof (invariant_call a s Hinv) as Hinv'. fold s' in Hinv'.
  clearbody s.
  assert (Hfree : deferred s !! request_id s = None).
  { destruct (deferred s !! request_id s) as [q|] eqn:E; [|done].
    destruct (coh_table_below _ _ _ _ _ (inv_coherent _ Hinv) _ _ E); lia. }
  assert (Hs' : s' = execute (a, p) (set_next_promise (S (next_promise s)) s)).
  { subst s' p. unfold barrier_run. hub_simpl. by rewrite Hopen. }
  assert (Hslot : deferred s' !! request_id s = Some p).
  { rewrite Hs'. destruct a; try done; unfold execute, body, deferred_wait; hub_simpl;
      rewrite Hfree; hub_simpl; apply lookup_insert_eq. }
  repeat split.
  - rewrite Hs', execute_sent. reflexivity.
  - by destruct a.
  - exact Hslot.
  - by apply (coh_table_fresh _ _ _ _ _ (inv_coherent _ Hinv') (request_id s) p).
  - rewrite Hs', execute_request_id. hub_simpl. rewrite Ha.
    unfold number_succ. case_match; lia.
Qed.

(** C3: processing a [register-ok] or [lookup-ok] message that carries
    [request_id = k] fulfils the promise of the call that waits in the
    slot of [k], with the message as its value, and removes that slot.
    Every other slot of the correlation table and every other promise is
    left as it was, the other waiting calls stay pending, and two success
    responses for different identifiers give the same state in either
    arrival order. *)
Theorem ok_resolves_exactly_its_call
    (inputs : list input) (message : value) (t : string) (k : Z) (p : promise) :
  let s := run inputs constructor in
  let s' := step s (SocketMessage (Json message)) in
  get message "type" = Ok (VStr t) -> is_ok_tag t = true ->
  get message "request_id" = Ok (VNum k) ->
  deferred s !! k = Some p ->
  onMessage (Json message) s = Ok s' /\
  settled s !! p = None /\
  settled s' !! p = Some (Fulfilled message) /\
  deferred s' !! k = None /\
  (forall j, j <> k -> deferred s' !! j = deferred s !! j) /\
  (forall q, q <> p -> settled s' !! q = settled s !! q) /\
  (forall j q, j <> k -> deferred s !! j = Some q -> settled s' !! q = None) /\
  (forall other t' k',
     get other "type" = Ok (VStr t') -> is_ok_tag t' = true ->
     get other "request_id" = Ok (VNum k') -> k' <> k ->
     run [SocketMessage (Json message); SocketMessage (Json other)] s =
     run [SocketMessage (Json other); SocketMessage (Json message)] s).
Proof.
  intros s s' Ht Hok Hid Hk.
  pose proof (invariant_reachable inputs) as Hinv. fold s in Hinv. clearbody s.
  assert (Hm : forall s0, onMessage (Json message) s0 = Ok (deferred_resolve (VNum k) message s0))
    by (intros s0; by apply (onMessage_ok message (VNum k) t)).
  assert (Hs' : s' = deferred_resolve (VNum k) message s).
  { subst s'. simpl. by rewrite Hm. }
  destruct (deferred_complete_exactly k p (Fulfilled message) s Hinv Hk)
    as (H1 & H2 & H3 & H4 & H5 & H6 & _).
  rewrite Hs'. repeat split; try done.
  intros other t' k' Ht' Hok' Hid' Hne.
  assert (Ho : forall s0, onMessage (Json other) s0 = Ok (deferred_resolve (VNum k') other s0))
    by (intros s0; by apply (onMessage_ok other (VNum k') t')).
  unfold run. cbn [fold_left step]. rewrite (Hm s), (Ho s), Ho, Hm.
  unfold deferred_resolve. by apply deferred_complete_commute.
Qed.

Lemma ok_resolves_exactly_its_call_witness :
  let inputs := [SocketMessage (Json (handshake "peer-42"));
                 Call (Register "bob"); Call (Lookup "carol")] in
  let message := VObj [("type", VStr "lookup-ok"); ("request_id", VNum 1);
                       ("addresses", VArr [VStr "peer-7"])] in
  let s := run inputs constructor in
  let s' := step s (SocketMessage (Json message)) in
  settled s' !! 1%nat = Some (Fulfilled message) /\ deferred s' !! 1 = None.
Proof.
  pose proof (ok_resolves_exactly_its_call
                [SocketMessage (Json (handshake "peer-42"));
                 Call (Register "bob"); Call (Lookup "carol")]
                (VObj [("type", VStr "lookup-ok"); ("request_id", VNum 1);
                       ("addresses", VArr [VStr "peer-7"])])
                "lookup-ok" 1 1%nat eq_refl eq_refl eq_refl eq_refl)
    as (_ & _ & H1 & H2 & _).
  exact (conj H1 H2).
Defined.

(** C7: processing a [register-fail] or [lookup-fail] message that carries
    [request_id = k] and a reason rejects the promise of the call that
    waits in the slot of [k], with exactly that reason, and removes the
    slot.  No other slot and no other promise changes, and nothing is
    sent: the request is not retried and the counter does not move. *)
Theorem fail_rejects_exactly_its_call
    (inputs : list input) (message why : value) (t : string) (k : Z) (p : promise) :
  let s := run inputs constructor in
  let s' := step s (SocketMessage (Json message)) in
  get message "type" = Ok (VStr t) -> is_fail_tag t = true ->
  get message "request_id" = Ok (VNum k) ->
  get message "reason" = Ok why ->
  deferred s !! k = Some p ->
  onMessage (Json message) s = Ok s' /\
  settled s !! p = None /\
  settled s' !! p = Some (Rejected (Reason why)) /\
  deferred s' !! k = None /\
  (forall j, j <> k -> deferred s' !! j = deferred s !! j) /\
  (forall q, q <> p -> settled s' !! q = settled s !! q) /\
  (forall j q, j <> k -> deferred s !! j = Some q -> settled s' !! q = None) /\
  socket s' = socket s /\ request_id s' = request_id s /\ barrier s' = barrier s.
Proof.
  intros s s' Ht Hfail Hid Hwhy Hk.
  pose proof (invariant_reachable inputs) as Hinv. fold s in Hinv. clearbody s.
  assert (Hm : onMessage (Json message) s = Ok (deferred_reject (VNum k) why s))
    by (by apply (onMessage_fail message (VNum k) why t)).
  assert (Hs' : s' = deferred_reject (VNum k) why s).
  { subst s'. simpl. by rewrite Hm. }
  destruct (deferred_complete_exactly k p (Rejected (Reason why)) s Hinv Hk)
    as (H1 & H2 & H3 & H4 & H5 & H6 & H7 & H8 & _ & H9 & _).
  rewrite Hs'. by repeat split.
Qed.

Lemma fail_rejects_exactly_its_call_witness :
  let inputs := [SocketMessage (Json (handshake "peer-42"));
                 Call (Register "bob"); Call (Lookup "carol")] in
  let message := VObj [("type", VStr "lookup-fail"); ("request_id", VNum 1);
                       ("reason", VStr "not-found")] in
  let s := run inputs constructor in
  let s' := step s (SocketMessage (Json message)) in
  settled s' !! 1%nat = Some (Rejected (Reason (VStr "not-found"))) /\
  sent (socket s') = sent (socket s).
Proof.
  pose proof (fail_rejects_exactly_its_call
                [SocketMessage (Json (handshake "peer-42"));
                 Call (Register "bob"); Call (Lookup "carol")]
                (VObj [("type", VStr "lookup-fail"); ("request_id", VNum 1);
                       ("reason", VStr "not-found")])
                (VStr "not-found") "lookup-fail" 1 1%nat
                eq_refl eq_refl eq_refl eq_refl eq_refl)
    as (_ & _ & H1 & _ & _ & _ & _ & H2 & _).
  exact (conj H1 (f_equal sent H2)).
Defined.

(** ** Malformed payloads *)

(** The record of reported exceptions is write-only: no method reads it,
    so every operation commutes with a change of that record. *)
Section Uncaught.
Variable u : list exn.

Lemma settle_uncaught_commute p o s :
  settle p o (set_uncaught u s) = set_uncaught u (settle p o s).
Proof. unfold settle. hub_simpl. by case_match. Qed.

Lemma deferred_wait_uncaught_commute id p s :
  deferred_wait id p (set_uncaught u s) = set_uncaught u (deferred_wait id p s).
Proof.
  unfold deferred_wait. hub_simpl. case_match; [|done].
  apply settle_uncaught_commute.
Qed.

Lemma deferred_complete_uncaught_commute id o s :
  deferred_complete id o (set_uncaught u s) = set_uncaught u (deferred_complete id o s).
Proof.
  unfold deferred_complete. hub_simpl. repeat case_match; try done.
  apply (settle_uncaught_commute _ _ (set_deferred _ s)).
Qed.

Lemma execute_uncaught_commute ap s :
  execute ap (set_uncaught u s) = set_uncaught u (execute ap s).
Proof.
  destruct ap as [[| | | |to data] p]; unfold execute, body, bind; hub_simpl;
    try (destruct (get (binding s) _) as [from|]; hub_simpl);
    try (destruct (JSON_stringify_forward to from data); hub_simpl);
    first [ apply settle_uncaught_commute
          | apply (deferred_wait_uncaught_commute _ _ (socket_send _ (set_request_id _ s)))
          | apply (settle_uncaught_commute _ _ (socket_send _ s)) ].
Qed.

Lemma drain_uncaught_commute q s :
  drain q (set_uncaught u s) = set_uncaught u (drain q s).
Proof.
  revert s. induction q as [|ap q IH]; intros s; simpl; [done|].
  by rewrite execute_uncaught_commute, IH.
Qed.

Lemma barrier_run_uncaught_commute a s :
  snd (barrier_run a (set_uncaught u s)) = set_uncaught u (snd (barrier_run a s)).
Proof.
  unfold barrier_run. hub_simpl. case_match; hub_simpl; [done|].
  apply (execute_uncaught_commute _ (set_next_promise _ s)).
Qed.

Lemma onMessage_uncaught_commute data s :
  onMessage data (set_uncaught u s) =
  match onMessage data s with
  | Ok s' => Ok (set_uncaught u s')
  | Throw e => Throw e
  end.
Proof.
  destruct data as [|message]; [done|].
  unfold onMessage, JSON_parse, bind.
  destruct (get message "type") as [[| | | |t| |]|]; try done.
  unfold dispatch.
  repeat case_match; simplify_eq; try done;
    unfold onBinding, onForward, onRegisterOk, onRegisterFail, onLookupOk,
           onLookupFail, bind, deferred_resolve, deferred_reject, barrier_resume in *;
    repeat case_match; simplify_eq; hub_simpl;
    rewrite <- ?deferred_complete_uncaught_commute; try done.
  f_equal. apply (drain_uncaught_commute _ (set_barrier _ (set_binding _ s))).
Qed.
End Uncaught.

Lemma step_uncaught_commute (u : list exn) (s : NetworkHub) (i : input) :
  exists u', step (set_uncaught u s) i = set_uncaught u' (step s i).
Proof.
  destruct i as [a|data|error| |]; simpl.
  - exists u. apply barrier_run_uncaught_commute.
  - rewrite onMessage_uncaught_commute.
    destruct (onMessage data s) as [s'|e]; [by exists u|].
    by exists (u ++ [e]).
  - by exists u.
  - by exists u.
  - by exists u.
Qed.

Lemma run_uncaught_commute (inputs : list input) (u : list exn) (s : NetworkHub) :
  exists u', run inputs (set_uncaught u s) = set_uncaught u' (run inputs s).
Proof.
  revert u s. induction inputs as [|i inputs IH]; intros u s; simpl; [by exists u|].
  destruct (step_uncaught_commute u s i) as [u' ->]. apply IH.
Qed.

(** C4, as stated, fails: on a malformed payload the message handler
    raises ([JSON.parse] throws and nothing catches it), and the client
    emits no event through which the failure could be observed. *)
Lemma malformed_frame_raises_without_event :
  onMessage Malformed constructor = Throw SyntaxError /\
  emitted (step constructor (SocketMessage Malformed)) = [] /\
  ~ (exists event, event ∈ emitted (step constructor (SocketMessage Malformed))).
Proof.
  repeat split. intros [event H]. simpl in H. by apply elem_of_nil in H.
Qed.

(** C4, amended: on a malformed payload [onMessage] raises the
    [SyntaxError] of the decoder before it has touched anything: the
    exception leaves the listener, no event is emitted, and the state of
    the client is what it was.  Every input delivered afterwards is
    therefore processed exactly as if the malformed frame had never
    arrived. *)
Theorem malformed_frame_raises_and_changes_nothing
    (s : NetworkHub) (later : list input) :
  onMessage Malformed s = Throw SyntaxError /\
  step s (SocketMessage Malformed) = report SyntaxError s /\
  emitted (step s (SocketMessage Malformed)) = emitted s /\
  forget_uncaught (step s (SocketMessage Malformed)) = forget_uncaught s /\
  forget_uncaught (run later (step s (SocketMessage Malformed))) =
  forget_uncaught (run later s).
Proof.
  repeat split.
  simpl. unfold report.
  destruct (run_uncaught_commute later (uncaught s ++ [SyntaxError]) s) as [u' ->].
  reflexivity.
Qed.

(** ** Correlation identifiers *)

Lemma identifiers_app (l1 l2 : list value) :
  identifiers (l1 ++ l2) = identifiers l1 ++ identifiers l2.
Proof. unfold identifiers. by rewrite !flat_map_concat_map, map_app, concat_app. Qed.

Lemma identifiers_frames_of (a : action) (s : NetworkHub) :
  identifiers (frames_of a s) = if allocates a then [request_id s] else [].
Proof.
  destruct a as [| | | |to data]; try reflexivity.
  unfold frames_of. destruct (get (binding s) "address"); [|done].
  by destruct data.
Qed.

Lemma counted_same (s s' : NetworkHub) :
  sent (socket s') = sent (socket s) -> request_id s' = request_id s ->
  counted s -> counted s'.
Proof. unfold counted. by intros -> ->. Qed.

Lemma counted_execute (ap : action * promise) (s : NetworkHub) :
  counted s -> counted (execute ap s).
Proof.
  unfold counted. intros [Hids Hrid].
  rewrite execute_sent, execute_request_id, identifiers_app, identifiers_frames_of.
  destruct (allocates (fst ap)).
  - rewrite length_app. simpl. rewrite Nat.add_1_r, seq_S, fmap_app. simpl.
    split.
    + rewrite <- Hids. by rewrite Hrid.
    + rewrite Hrid. unfold number_succ. case_match; lia.
  - by rewrite app_nil_r.
Qed.

Lemma counted_drain (queue : list (action * promise)) (s : NetworkHub) :
  counted s -> counted (drain queue s).
Proof.
  revert s. induction queue as [|ap q IH]; intros s H; simpl; [done|].
  by apply IH, counted_execute.
Qed.

Lemma counted_step (s : NetworkHub) (i : input) : counted s -> counted (step s i).
Proof.
  intros H. destruct i as [a|[|message]|error| |]; simpl; try done.
  - unfold barrier_run. hub_simpl. case_match; hub_simpl; [done|].
    by apply (counted_execute _ (set_next_promise _ s)).
  - destruct (onMessage (Json message) s) as [s'|e] eqn:E; [|done].
    apply onMessage_cases in E as [[_ ->]|[_ [->|[(id & o & ->)| ->]]]]; try done.
    + by apply (counted_drain _ (set_barrier _ (set_binding message s))).
    + eapply counted_same; [| |exact H]; by autorewrite with hub.
Qed.

Lemma counted_run (inputs : list input) (s : NetworkHub) :
  counted s -> counted (run inputs s).
Proof.
  revert s. induction inputs as [|i inputs IH]; intros s H; simpl; [done|].
  by apply IH, counted_step.
Qed.

Lemma counted_constructor : counted constructor.
Proof. by split. Qed.

Lemma seq_increasing (start len : nat) :
  StronglySorted Z.lt (Z.of_nat <$> seq start len).
Proof.
  revert start. induction len as [|len IH]; intros start; simpl; constructor.
  - apply IH.
  - apply Forall_fmap, Forall_forall. intros j Hj. apply list_elem_of_In, in_seq in Hj.
    simpl. lia.
Qed.

(** A call made while the gate is open runs at once. *)
Lemma call_open (a : action) (s : NetworkHub) :
  paused (barrier s) = false ->
  sent (socket (step s (Call a))) = sent (socket s) ++ frames_of a s /\
  request_id (step s (Call a)) =
    (if allocates a then number_succ (request_id s) else request_id s) /\
  barrier (step s (Call a)) = barrier s /\
  binding (step s (Call a)) = binding s.
Proof.
  intros Hp. simpl. unfold barrier_run. hub_simpl. rewrite Hp. hub_simpl.
  rewrite execute_sent, execute_request_id, execute_barrier, execute_binding.
  hub_simpl. by repeat split.
Qed.

(** C2, as stated, fails at the end of the range in which a JavaScript
    number counts exactly: once 2^53 identifiers have been handed out,
    [request_id++] leaves the counter where it is, and the next
    [register] and [lookup] both send the identifier 2^53. *)
Lemma identifier_repeats_after_exhaustion :
  let s := run [Call (Register "bob"); Call (Lookup "carol")] exhausted in
  sent (socket s) =
    sent (socket exhausted)
    ++ [register_envelope (2 ^ 53) "bob"; lookup_envelope (2 ^ 53) "carol"] /\
  ~ NoDup (identifiers (sent (socket s))).
Proof.
  assert (Hiter : forall n s,
            paused (barrier s) = false -> 0 <= request_id s <= MAX_EXACT ->
            let s' := N.iter n (fun s => step s (Call (Register "alice"))) s in
            paused (barrier s') = false /\
            request_id s' = Z.min (request_id s + Z.of_N n) MAX_EXACT).
  { intros n s Hp Hr. induction n as [|n IH] using N.peano_ind.
    - simpl. split; [done|lia].
    - rewrite N.iter_succ. destruct IH as [IHp IHr]. cbn zeta.
      set (s' := N.iter n _ s) in *. clearbody s'.
      simpl. unfold barrier_run. hub_simpl. rewrite IHp. hub_simpl.
      rewrite execute_barrier, execute_request_id. hub_simpl.
      split; [done|]. rewrite IHr, N2Z.inj_succ. cbn [allocates fst].
      unfold number_succ. case_match; lia. }
  destruct (Hiter (2 ^ 53)%N
              (run [SocketMessage (Json (handshake "peer-42"))] constructor))
    as [Hp Hr]; [reflexivity|by vm_compute|].
  clear Hiter. unfold exhausted.
  set (s := N.iter (2 ^ 53) _ _) in *. clearbody s.
  vm_compute in Hr. change (request_id s = 2 ^ 53) in Hr.
  assert (Hsent : sent (socket (run [Call (Register "bob"); Call (Lookup "carol")] s)) =
                  sent (socket s) ++ [register_envelope (2 ^ 53) "bob";
                                      lookup_envelope (2 ^ 53) "carol"]).
  { unfold run. cbn [fold_left].
    destruct (call_open (Register "bob") s Hp) as (Hs1 & Hr1 & Hb1 & _).
    destruct (call_open (Lookup "carol") (step s (Call (Register "bob"))))
      as (Hs2 & _); [by rewrite Hb1|].
    rewrite Hs2, Hs1. cbn [frames_of]. rewrite Hr1, Hr. cbn [allocates].
    rewrite <- app_assoc. reflexivity. }
  split; [exact Hsent|].
  rewrite Hsent, identifiers_app. intros Hdup.
  apply NoDup_app in Hdup as (_ & _ & Hdup).
  apply NoDup_cons in Hdup as [Hin _]. apply Hin. left.
Qed.

(** C2, amended: in every run, whatever else happens in between, the
    correlation identifiers sent by [register] and [lookup] come from the
    one counter and are 0, 1, 2, ... in the order of sending, strictly
    increasing and without repeats, for the first 2^53 identifiers (the
    range in which a JavaScript number counts exactly); the counter holds
    the number of identifiers handed out so far. *)
Theorem identifiers_count_up (inputs : list input) :
  let s := run inputs constructor in
  let ids := identifiers (sent (socket s)) in
  Z.of_nat (length ids) <= MAX_EXACT ->
  ids = Z.of_nat <$> seq 0 (length ids) /\
  StronglySorted Z.lt ids /\
  NoDup ids /\
  request_id s = Z.of_nat (length ids).
Proof.
  intros s ids Hlen.
  destruct (counted_run inputs constructor counted_constructor) as [Hids Hrid].
  fold s in Hids, Hrid. fold ids in Hids, Hrid.
  assert (Heq : ids = Z.of_nat <$> seq 0 (length ids)).
  { rewrite Hids at 1. apply list_fmap_ext. intros j x Hx.
    apply lookup_seq in Hx as [-> Hx]. simpl. lia. }
  assert (Hsorted : StronglySorted Z.lt ids).
  { rewrite Heq. apply seq_increasing. }
  repeat split; try done.
  - rewrite Heq. apply NoDup_fmap_2; [apply _|apply NoDup_seq].
  - rewrite Hrid. lia.
Qed.

Lemma identifiers_count_up_witness :
  let inputs := [Call (Lookup "carol"); SocketMessage (Json (handshake "peer-42"));
                 Call (Register "alice"); SocketClose; Call (Register "bob")] in
  identifiers (sent (socket (run inputs constructor))) = [0; 1] /\
  request_id (run inputs constructor) = 2.
Proof.
  pose proof (identifiers_count_up
                [Call (Lookup "carol"); SocketMessage (Json (handshake "peer-42"));
                 Call (Register "alice"); SocketClose; Call (Register "bob")]) as H.
  simpl in H. destruct H as (H1 & _ & _ & H2); [by vm_compute|].
  exact (conj H1 H2).
Defined.

(** ** The sender address of forwards *)

Lemma step_binding (s : NetworkHub) (i : input) :
  binding (step s i) =
  match i with
  | SocketMessage (Json message) => if is_handshake message then message else binding s
  | _ => binding s
  end.
Proof.
  destruct i as [a|[|message]|error| |]; simpl; try done.
  - unfold barrier_run. hub_simpl. case_match; hub_simpl; [done|].
    by rewrite execute_binding.
  - destruct (onMessage (Json message) s) as [s'|e] eqn:E.
    + apply onMessage_cases in E as [[-> ->]|[-> [->|[(id & o & ->)| ->]]]];
        autorewrite with hub; try done.
      unfold barrier_resume. by rewrite drain_binding.
    + unfold onMessage, is_handshake, bind in *. simpl in E.
      destruct (get message "type") as [[| | | |t| |]|]; try done.
      unfold dispatch, onBinding in E. destruct (String.eqb t "binding"); done.
Qed.

Lemma binding_is_last_handshake (inputs : list input) :
  binding (run inputs constructor) = last_handshake inputs.
Proof.
  unfold last_handshake. change VUndefined with (binding constructor).
  generalize constructor. induction inputs as [|i inputs IH]; intros s; simpl; [done|].
  rewrite IH. f_equal. apply step_binding.
Qed.









(** * Further properties of the client *)

(** ** What [onMessage] does for each kind of payload *)

(** [onMessage] spelled out by the tag it reads. *)
Lemma onMessage_by_tag (message : value) (s : NetworkHub) :
  onMessage (Json message) s =
  match get message "type" with
  | Throw e => Throw e
  | Ok tag => dispatch tag message s
  end.
Proof. unfold onMessage. simpl. by destruct (get message "type"). Qed.

Lemma get_defined (v : value) (k : string) :
  v <> VNull -> v <> VUndefined -> exists x, get v k = Ok x.
Proof. destruct v; simpl; intros; try done; eauto. Qed.

(** X1: [onMessage] raises in two cases only: the payload does not decode,
    or it decodes to [null] and the read of [message.type] fails.  No
    handler raises, whatever fields the message lacks. *)
Theorem onMessage_raises_only_on_malformed_or_null
    (data : frame) (s : NetworkHub) (e : exn) :
  onMessage data s = Throw e <->
  (data = Malformed /\ e = SyntaxError) \/
  ((data = Json VNull \/ data = Json VUndefined) /\ e = TypeError).
Proof.
  split.
  - destruct data as [|message]; [intros [= <-]; by left|].
    assert (Hcases : message = VNull \/ message = VUndefined \/
                     (message <> VNull /\ message <> VUndefined))
      by (destruct message; auto).
    destruct Hcases as [->|[->|[Hn Hu]]];
      [intros [= <-]; right; split; [by left|done]
      |intros [= <-]; right; split; [by right|done]|].
    rewrite onMessage_by_tag.
    destruct (get_defined message "type" Hn Hu) as [tag ->].
    destruct (get_defined message "request_id" Hn Hu) as [id Hid].
    destruct (get_defined message "reason" Hn Hu) as [why Hwhy].
    unfold dispatch, onBinding, onForward, onRegisterOk, onRegisterFail,
           onLookupOk, onLookupFail, bind. rewrite Hid, Hwhy.
    by repeat case_match.
  - intros [[-> ->]|[[->| ->] ->]]; reflexivity.
Qed.

(** X2: a message whose tag has no case in the [switch] is dropped.  This
    includes the two request types of the protocol, [register] and
    [lookup], which belong to the union [Message] but are only ever sent:
    when the hub sends one back, the client ignores it. *)
Theorem message_without_case_is_ignored (s : NetworkHub) (message tag : value) :
  get message "type" = Ok tag ->
  is_handled_tag tag = false ->
  onMessage (Json message) s = Ok s /\
  step s (SocketMessage (Json message)) = s.
Proof.
  intros Htag Hno.
  assert (H : onMessage (Json message) s = Ok s).
  { rewrite onMessage_by_tag, Htag.
    destruct tag as [| | | |t| |]; simpl; try done.
    simpl in Hno. repeat (apply orb_false_elim in Hno as [? Hno]).
    by repeat case_match. }
  split; [exact H|]. simpl. by rewrite H.
Qed.

Lemma message_without_case_is_ignored_witness :
  let s := run [SocketMessage (Json (handshake "peer-42")); Call (Register "alice")]
               constructor in
  step s (SocketMessage (Json (register_envelope 0 "alice"))) = s.
Proof.
  apply (message_without_case_is_ignored _ (register_envelope 0 "alice") (VStr "register"));
    reflexivity.
Defined.

(** ** The events a run emits *)

Lemma step_emitted (s : NetworkHub) (i : input) :
  emitted (step s i) = emitted s ++ event_of i.
Proof.
  destruct i as [a|[|message]|error| |]; simpl; rewrite ?app_nil_r; try done.
  - unfold barrier_run. hub_simpl. case_match; hub_simpl; [done|].
    by rewrite execute_emitted.
  - rewrite onMessage_by_tag. unfold is_forward.
    destruct (get message "type") as [[| | | |t| |]|]; simpl;
      rewrite ?app_nil_r; try done.
    destruct (String.eqb t "binding") eqn:E1.
    { apply String.eqb_eq in E1 as ->. simpl. unfold barrier_resume.
      by rewrite drain_emitted, app_nil_r. }
    destruct (String.eqb t "forward") eqn:E2; [done|].
    unfold onRegisterOk, onRegisterFail, onLookupOk, onLookupFail, bind,
           deferred_resolve, deferred_reject.
    rewrite app_nil_r.
    repeat case_match; simplify_eq; by autorewrite with hub.
Qed.

(** X3: in every run the client emits exactly one [forward] event for
    each inbound forward message, carrying the whole message, and one
    [error] event for each socket error, in the order of arrival, and
    nothing else: calls, handshakes, responses, close notifications and
    undecodable payloads emit no event. *)
Theorem emitted_events_of_run (inputs : list input) (s : NetworkHub) :
  emitted (run inputs s) = emitted s ++ flat_map event_of inputs /\
  emitted (run inputs constructor) = flat_map event_of inputs.
Proof.
  assert (H : forall s0, emitted (run inputs s0) = emitted s0 ++ flat_map event_of inputs).
  { induction inputs as [|i inputs IH]; intros s0; simpl; [by rewrite app_nil_r|].
    unfold run in IH. by rewrite IH, step_emitted, <- app_assoc. }
  split; [apply H|]. by rewrite H.
Qed.

(** ** The state of the gate *)

Lemma step_paused (s : NetworkHub) (i : input) :
  paused (barrier (step s i)) =
  if is_handshake_input i then false
  else match i with
       | SocketClose => true
       | _ => paused (barrier s)
       end.
Proof.
  destruct i as [a|[|message]|error| |]; simpl; try done.
  - unfold barrier_run. hub_simpl. case_match; hub_simpl; [done|].
    by rewrite execute_barrier.
  - destruct (is_handshake message) eqn:Hm.
    + rewrite (dispatch_handshake _ _ Hm). unfold barrier_resume.
      by rewrite drain_barrier.
    + destruct (onMessage (Json message) s) as [s'|e] eqn:E; [|done].
      apply onMessage_cases in E as [[Hm' _]|[_ [->|[(id & o & ->)| ->]]]];
        try congruence; by autorewrite with hub.
Qed.

(** X4: the gate is driven by two inputs only.  After any run it is open
    exactly when a handshake has been processed and no close notification
    has arrived since; calls, responses, forwards, socket errors,
    undecodable payloads and [dispose] leave it as it is. *)
Theorem gate_follows_handshake_and_close (inputs : list input) (s : NetworkHub) :
  paused (barrier (run inputs s)) = gate_closed_after (paused (barrier s)) inputs /\
  paused (barrier (run inputs constructor)) = gate_closed_after true inputs.
Proof.
  assert (H : forall s0, paused (barrier (run inputs s0)) =
                         gate_closed_after (paused (barrier s0)) inputs).
  { unfold gate_closed_after.
    induction inputs as [|i inputs IH]; intros s0; simpl; [done|].
    unfold run in IH. by rewrite IH, step_paused. }
  split; [apply H|]. by rewrite H.
Qed.

(** X5: a handshake processed while the gate is already open only
    replaces the binding: nothing is sent, no promise is settled, and the
    correlation table, the counter and the gate stay as they are. *)
Theorem handshake_on_open_gate_swaps_binding (inputs : list input) (message : value) :
  let s := run inputs constructor in
  paused (barrier s) = false ->
  is_handshake message = true ->
  step s (SocketMessage (Json message)) = set_binding message s.
Proof.
  intros s Hopen Hm.
  pose proof (inv_open_queue _ (invariant_reachable inputs) Hopen) as Hq.
  fold s in Hq. clearbody s.
  simpl. rewrite (dispatch_handshake _ _ Hm). unfold barrier_resume.
  hub_simpl. rewrite Hq.
  destruct s as [sock [pa aw] ? ? ? ? ? ? ?]. simpl in *. by subst.
Qed.

Lemma handshake_on_open_gate_swaps_binding_witness :
  let s := run [SocketMessage (Json (handshake "peer-42")); Call (Register "alice")]
               constructor in
  step s (SocketMessage (Json (handshake "peer-43"))) =
  set_binding (handshake "peer-43") s.
Proof.
  apply (handshake_on_open_gate_swaps_binding
           [SocketMessage (Json (handshake "peer-42")); Call (Register "alice")]
           (handshake "peer-43")); reflexivity.
Defined.

(** ** The accessors *)

(** X6: while the gate is open, [address()] and [configuration()] settle
    at once with the [address] and [configuration] fields of the handshake
    processed last (with [undefined] when that handshake lacks the field).
    They send nothing and leave the counter, the correlation table and the
    binding as they are. *)
Theorem accessors_return_fields_of_binding (inputs : list input) :
  let s := run inputs constructor in
  paused (barrier s) = false ->
  exists addr conf,
    get (last_handshake inputs) "address" = Ok addr /\
    get (last_handshake inputs) "configuration" = Ok conf /\
    settled (snd (address s)) !! fst (address s) = Some (Fulfilled addr) /\
    settled (snd (configuration s)) !! fst (configuration s) = Some (Fulfilled conf) /\
    (forall s', s' = snd (address s) \/ s' = snd (configuration s) ->
       socket s' = socket s /\ request_id s' = request_id s /\
       deferred s' = deferred s /\ binding s' = binding s /\ barrier s' = barrier s).
Proof.
  intros s Hopen.
  pose proof (invariant_reachable inputs) as Hinv.
  pose proof (binding_is_last_handshake inputs) as Hb.
  fold s in Hinv, Hb. rewrite <- Hb. clearbody s.
  pose proof (inv_open_binding _ Hinv Hopen) as Hobj.
  destruct (object_get _ "address" Hobj) as [addr Ha].
  destruct (object_get _ "configuration" Hobj) as [conf Hc].
  assert (Hfresh : settled s !! next_promise s = None).
  { destruct (settled s !! next_promise s) eqn:E; [|done].
    assert (next_promise s < next_promise s)%nat
      by (apply (coh_done_fresh _ _ _ _ _ (inv_coherent _ Hinv)); eauto).
    lia. }
  assert (Haddr : address s = (next_promise s,
            settle (next_promise s) (Fulfilled addr) (set_next_promise (S (next_promise s)) s))).
  { unfold address, barrier_run. hub_simpl. rewrite Hopen.
    unfold execute, body, bind. hub_simpl. by rewrite Ha. }
  assert (Hconf : configuration s = (next_promise s,
            settle (next_promise s) (Fulfilled conf) (set_next_promise (S (next_promise s)) s))).
  { unfold configuration, barrier_run. hub_simpl. rewrite Hopen.
    unfold execute, body, bind. hub_simpl. by rewrite Hc. }
  exists addr, conf. rewrite Haddr, Hconf. hub_simpl.
  repeat split; try done.
  - by apply (settle_pending _ _ (set_next_promise _ s)).
  - by apply (settle_pending _ _ (set_next_promise _ s)).
  - destruct H as [-> | ->]; by autorewrite with hub.
  - destruct H as [-> | ->]; by autorewrite with hub.
  - destruct H as [-> | ->]; by autorewrite with hub.
  - destruct H as [-> | ->]; by autorewrite with hub.
  - destruct H as [-> | ->]; by autorewrite with hub.
Qed.

Lemma accessors_return_fields_of_binding_witness :
  let inputs := [Call Address; SocketMessage (Json (handshake "peer-42"))] in
  let s := run inputs constructor in
  exists addr conf,
    get (last_handshake inputs) "address" = Ok addr /\
    get (last_handshake inputs) "configuration" = Ok conf /\
    settled (snd (address s)) !! fst (address s) = Some (Fulfilled addr) /\
    settled (snd (configuration s)) !! fst (configuration s) = Some (Fulfilled conf).
Proof.
  destruct (accessors_return_fields_of_binding
              [Call Address; SocketMessage (Json (handshake "peer-42"))] eq_refl)
    as (addr & conf & H1 & H2 & H3 & H4 & _).
  exists addr, conf. exact (conj H1 (conj H2 (conj H3 H4))).
Defined.

(** ** Disposal *)

Lemma step_closed_flag (s : NetworkHub) (i : input) :
  closed (socket (step s i)) = closed (socket s) || is_dispose_input i.
Proof.
  destruct i as [a|[|message]|error| |]; simpl; rewrite ?orb_false_r, ?orb_true_r;
    try done.
  - unfold barrier_run. hub_simpl. case_match; hub_simpl; [done|].
    by rewrite execute_closed.
  - destruct (onMessage (Json message) s) as [s'|e] eqn:E; [|done].
    apply onMessage_cases in E as [[_ ->]|[_ [->|[(id & o & ->)| ->]]]];
      try done; [|by autorewrite with hub].
    unfold barrier_resume. by rewrite drain_closed.
Qed.

(** X7: [dispose()] is the only place where the client closes its socket,
    and closing is all it does: after any run [close()] has been called
    exactly when [dispose] was, and [dispose] leaves the gate, the
    binding, the counter, the correlation table and every promise as they
    are, so the calls pending at disposal stay pending. *)
Theorem dispose_only_closes_socket (inputs : list input) (s : NetworkHub) :
  closed (socket (run inputs constructor)) = existsb is_dispose_input inputs /\
  closed (socket (dispose s)) = true /\
  sent (socket (dispose s)) = sent (socket s) /\
  barrier (dispose s) = barrier s /\ binding (dispose s) = binding s /\
  request_id (dispose s) = request_id s /\ deferred (dispose s) = deferred s /\
  settled (dispose s) = settled s /\ emitted (dispose s) = emitted s.
Proof.
  split; [|by repeat split].
  assert (H : forall s0, closed (socket (run inputs s0)) =
                         closed (socket s0) || existsb is_dispose_input inputs).
  { induction inputs as [|i inputs IH]; intros s0; simpl; [by rewrite orb_false_r|].
    unfold run in IH. by rewrite IH, step_closed_flag, orb_assoc. }
  by rewrite H.
Qed.

(** ** A pending request and its response *)

Lemma execute_keeps_slot (ap : action * promise) (s : NetworkHub) (k : Z) (p : promise) :
  deferred s !! k = Some p -> deferred (execute ap s) !! k = Some p.
Proof.
  intros Hk. destruct ap as [[] q]; unfold execute, body, bind; hub_simpl;
    try (destruct (get (binding s) _)); try (destruct (JSON_stringify_forward _ _ _));
    autorewrite with hub; hub_simpl; try done.
  all: unfold deferred_wait; hub_simpl;
    destruct (deferred s !! request_id s) eqn:E; autorewrite with hub; hub_simpl;
    try done; rewrite lookup_insert_ne; [done|congruence].
Qed.

Lemma drain_keeps_slot (queue : list (action * promise)) (s : NetworkHub)
    (k : Z) (p : promise) :
  deferred s !! k = Some p -> deferred (drain queue s) !! k = Some p.
Proof.
  revert s. induction queue as [|ap q IH]; intros s H; simpl; [done|].
  by apply IH, execute_keeps_slot.
Qed.

(** What [onMessage] does to the correlation table. *)
Lemma onMessage_table (message : value) (s s' : NetworkHub) :
  onMessage (Json message) s = Ok s' ->
  (is_handshake message = true /\ s' = barrier_resume (set_binding message s)) \/
  deferred s' = deferred s \/
  (is_response message = true /\
   exists id o, get message "request_id" = Ok id /\ s' = deferred_complete id o s).
Proof.
  rewrite onMessage_by_tag. unfold is_handshake, is_response.
  destruct (get message "type") as [[| | | |t| |]|]; simpl;
    try (intros [= <-]; right; by left); try done.
  destruct (String.eqb t "binding") eqn:E1; [intros [= <-]; by left|].
  destruct (String.eqb t "forward") eqn:E2; [intros [= <-]; right; by left|].
  unfold is_ok_tag, is_fail_tag.
  unfold onRegisterOk, onRegisterFail, onLookupOk, onLookupFail, bind,
         deferred_resolve, deferred_reject.
  repeat case_match; intros; simplify_eq; try (right; by left);
    right; right; (split; [simpl; by rewrite ?orb_true_r|]); eauto.
Qed.

Lemma step_keeps_slot (s : NetworkHub) (i : input) (k : Z) (p : promise) :
  deferred s !! k = Some p -> answers k i = false ->
  deferred (step s i) !! k = Some p.
Proof.
  intros Hk Hi. destruct i as [a|[|message]|error| |]; simpl; try done.
  - unfold barrier_run. hub_simpl. case_match; hub_simpl; [done|].
    by apply (execute_keeps_slot _ (set_next_promise _ s)).
  - destruct (onMessage (Json message) s) as [s'|e] eqn:E; [|done].
    apply onMessage_table in E as [[_ ->]|[->|(Hr & id & o & Hid & ->)]]; [|done|].
    + by apply (drain_keeps_slot _ (set_barrier _ (set_binding message s))).
    + simpl in Hi. rewrite Hr, Hid in Hi. simpl in Hi.
      unfold deferred_complete. destruct id as [| | |j| | |]; try done.
      apply Z.eqb_neq in Hi.
      destruct (deferred s !! j); autorewrite with hub; hub_simpl; [|done].
      by rewrite lookup_delete_ne.
Qed.

(** X8: a pending request stays pending until a response with its own
    identifier arrives.  In every run, whatever follows (other calls,
    responses for other identifiers, handshakes, close notifications,
    socket errors, disposal, undecodable payloads), the slot keeps its
    promise and the promise stays undecided. *)
Theorem pending_until_answered
    (inputs later : list input) (k : Z) (p : promise) :
  let s := run inputs constructor in
  deferred s !! k = Some p ->
  forallb (fun i => negb (answers k i)) later = true ->
  deferred (run later s) !! k = Some p /\
  settled (run later s) !! p = None.
Proof.
  intros s Hk Hlater.
  assert (Hslot : deferred (run later s) !! k = Some p).
  { clearbody s. revert s Hk.
    induction later as [|i later IH]; intros s Hk; simpl in *; [done|].
    apply andb_prop in Hlater as [Hi Hlater]. apply negb_true_iff in Hi.
    apply IH; [done|]. by apply step_keeps_slot. }
  split; [exact Hslot|].
  assert (Hinv : invariant (run later s)) by apply invariant_run, invariant_reachable.
  by apply (coh_table_fresh _ _ _ _ _ (inv_coherent _ Hinv) k p).
Qed.

Lemma pending_until_answered_witness :
  let inputs := [SocketMessage (Json (handshake "peer-42"));
                 Call (Register "bob"); Call (Lookup "carol")] in
  let later := [SocketClose;
                SocketMessage (Json (VObj [("type", VStr "lookup-ok"); ("request_id", VNum 1)]));
                SocketMessage (Json (handshake "peer-43")); Dispose] in
  deferred (run later (run inputs constructor)) !! 0 = Some 0%nat /\
  settled (run later (run inputs constructor)) !! 0%nat = None.
Proof.
  apply (pending_until_answered
           [SocketMessage (Json (handshake "peer-42"));
            Call (Register "bob"); Call (Lookup "carol")]
           [SocketClose;
            SocketMessage (Json (VObj [("type", VStr "lookup-ok"); ("request_id", VNum 1)]));
            SocketMessage (Json (handshake "peer-43")); Dispose]
           0 0%nat); reflexivity.
Defined.

(** X9: request and response round trip.  When [register] or [lookup] is
    called on an open gate (and the counter is below 2^53), the envelope
    it sends carries the current value of the counter, and a response that
    carries that identifier settles exactly the promise the call returned:
    a success response fulfils it with the message, a failure response
    rejects it with the reason of the message.  The response is matched by
    identifier alone: either of the two success tags (or failure tags)
    completes either kind of request. *)
Theorem request_response_round_trip
    (inputs : list input) (a : action) (message : value) (t : string) :
  let s := run inputs constructor in
  let p := fst (barrier_run a s) in
  let answered := step (snd (barrier_run a s)) (SocketMessage (Json message)) in
  paused (barrier s) = false -> allocates a = true -> request_id s < MAX_EXACT ->
  get message "type" = Ok (VStr t) ->
  get message "request_id" = Ok (VNum (request_id s)) ->
  identifiers (new_frames inputs (Call a)) = [request_id s] /\
  settled (snd (barrier_run a s)) !! p = None /\
  (is_ok_tag t = true -> settled answered !! p = Some (Fulfilled message)) /\
  (is_fail_tag t = true ->
     forall why, get message "reason" = Ok why ->
       settled answered !! p = Some (Rejected (Reason why))) /\
  (is_ok_tag t || is_fail_tag t = true -> deferred answered !! request_id s = None).
Proof.
  intros s p answered Hopen Ha Hlt Ht Hid.
  destruct (allocation_waits_on_its_identifier inputs a Hopen Ha Hlt)
    as (Hsent & Hids & Hslot & Hpend & _).
  assert (Hinv : invariant (snd (barrier_run a s)))
    by apply invariant_call, invariant_reachable.
  fold s in Hsent, Hids, Hslot, Hpend. fold p in Hslot, Hpend.
  assert (Hnew : new_frames inputs (Call a) = frames_of a s).
  { unfold new_frames. rewrite run_snoc. simpl. fold s. by rewrite Hsent, drop_app_length. }
  assert (Hok : is_ok_tag t = true -> settled answered !! p = Some (Fulfilled message)).
  { intros Hok. subst answered. simpl.
    rewrite (onMessage_ok message _ t _ Ht Hok Hid).
    by destruct (deferred_complete_exactly _ p (Fulfilled message) _ Hinv Hslot)
      as (_ & H & _). }
  assert (Hfail : is_fail_tag t = true -> forall why, get message "reason" = Ok why ->
                  settled answered !! p = Some (Rejected (Reason why))).
  { intros Hfail why Hwhy. subst answered. simpl.
    rewrite (onMessage_fail message _ why t _ Ht Hfail Hid Hwhy).
    by destruct (deferred_complete_exactly _ p (Rejected (Reason why)) _ Hinv Hslot)
      as (_ & H & _). }
  rewrite Hnew. repeat split; try done.
  intros Htag. apply orb_prop in Htag as [Hok'|Hfail'].
  - subst answered. simpl. rewrite (onMessage_ok message _ t _ Ht Hok' Hid).
    by destruct (deferred_complete_exactly _ p (Fulfilled message) _ Hinv Hslot)
      as (_ & _ & H & _).
  - subst answered. simpl.
    assert (Hm : exists s', onMessage (Json message) (snd (barrier_run a s)) = Ok s' /\
                 exists o, s' = deferred_complete (VNum (request_id s)) o (snd (barrier_run a s))).
    { rewrite onMessage_by_tag, Ht.
      unfold is_fail_tag in Hfail'. apply orb_prop in Hfail' as [H|H];
        apply String.eqb_eq in H; subst t; simpl;
        unfold onRegisterFail, onLookupFail, bind, deferred_reject; rewrite Hid;
        destruct (get message "reason") eqn:E; eauto.
      all: destruct message; simpl in *; done. }
    destruct Hm as (s' & -> & o & ->).
    by destruct (deferred_complete_exactly _ p o _ Hinv Hslot) as (_ & _ & H & _).
Qed.

Lemma request_response_round_trip_witness :
  let inputs := [SocketMessage (Json (handshake "peer-42")); Call (Lookup "carol")] in
  let message := VObj [("type", VStr "lookup-ok"); ("request_id", VNum 1); ("quota", VNum 5)] in
  let s := run inputs constructor in
  let p := fst (barrier_run (Register "alice") s) in
  let answered := step (snd (barrier_run (Register "alice") s)) (SocketMessage (Json message)) in
  identifiers (new_frames inputs (Call (Register "alice"))) = [1] /\
  settled answered !! p = Some (Fulfilled message).
Proof.
  destruct (request_response_round_trip
              [SocketMessage (Json (handshake "peer-42")); Call (Lookup "carol")]
              (Register "alice")
              (VObj [("type", VStr "lookup-ok"); ("request_id", VNum 1); ("quota", VNum 5)])
              "lookup-ok" eq_refl eq_refl eq_refl eq_refl eq_refl)
    as (H1 & _ & H2 & _).
  exact (conj H1 (H2 eq_refl)).
Defined.

(** ** Every call sends once, sooner or later *)

Lemma step_conserves (s : NetworkHub) (i : input) :
  invariant s ->
  (length (sent (socket (step s i))) + sends_owed (awaiters (barrier (step s i))))%nat =
  (length (sent (socket s)) + sends_owed (awaiters (barrier s)) + sends_due [i])%nat.
Proof.
  intros Hinv. unfold sends_due, sends_owed.
  destruct i as [a|[|message]|error| |]; simpl; try lia.
  - unfold barrier_run. hub_simpl. destruct (paused (barrier s)) eqn:Hp; hub_simpl.
    + rewrite !fmap_app, sum_list_with_app. simpl. lia.
    + rewrite execute_sent, execute_barrier, length_app. hub_simpl.
      pose proof (inv_open_binding _ Hinv Hp) as Hobj.
      rewrite (frames_of_length (a, next_promise s) (set_next_promise _ s)); [simpl; lia|].
      hub_simpl. destruct (binding s); try done. eauto.
  - destruct (onMessage (Json message) s) as [s'|e] eqn:E; [|simpl; lia].
    apply onMessage_cases in E as [[Hm ->]|[_ [->|[(id & o & ->)| ->]]]];
      autorewrite with hub; hub_simpl; try lia.
    unfold barrier_resume. hub_simpl.
    rewrite drain_sent, drain_barrier, length_app. hub_simpl.
    rewrite drain_frames_length; [simpl; lia|].
    hub_simpl. apply handshake_is_object in Hm. destruct message; try done. eauto.
Qed.

Lemma sends_due_app (xs ys : list input) :
  sends_due (xs ++ ys) = (sends_due xs + sends_due ys)%nat.
Proof. unfold sends_due. by rewrite fmap_app, sum_list_with_app. Qed.

(** X10: no call that can send is lost and none sends twice.  In every
    run the number of envelopes handed to the socket, plus the number owed
    by the calls still waiting at the gate, equals the number of calls
    made that send: [register], [lookup], and [forward] with data
    [JSON.stringify] can encode.  A [forward] of data it cannot encode (a
    BigInt, a circular structure) never sends, nor do [address] and
    [configuration], and the client never sends on its own account (no
    acknowledgement, no retry). *)
Theorem every_sending_call_sends_once (inputs : list input) :
  let s := run inputs constructor in
  (length (sent (socket s)) + sends_owed (awaiters (barrier s)))%nat = sends_due inputs /\
  (length (sent (socket s)) <= sends_due inputs)%nat /\
  (paused (barrier s) = false -> length (sent (socket s)) = sends_due inputs).
Proof.
  assert (H : (length (sent (socket (run inputs constructor)))
               + sends_owed (awaiters (barrier (run inputs constructor))))%nat
              = sends_due inputs).
  { induction inputs as [|i inputs IH] using rev_ind; [reflexivity|].
    rewrite run_snoc, sends_due_app, step_conserves by apply invariant_reachable.
    lia. }
  intros s. subst s. repeat split; [done|lia|].
  intros Hopen.
  rewrite (inv_open_queue _ (invariant_reachable inputs) Hopen) in H.
  unfold sends_owed in H. simpl in H. lia.
Qed.

Lemma every_sending_call_sends_once_witness :
  let inputs := [Call (Register "alice"); Call Address; Call (Forward "peer-9" (BigInt 10));
                 SocketMessage (Json (handshake "peer-42"));
                 Call (Forward "peer-7" (Plain VNull)); Call (Forward "peer-8" Circular)] in
  length (sent (socket (run inputs constructor))) = sends_due inputs /\
  sends_due inputs = 2%nat.
Proof.
  destruct (every_sending_call_sends_once
              [Call (Register "alice"); Call Address; Call (Forward "peer-9" (BigInt 10));
               SocketMessage (Json (handshake "peer-42"));
               Call (Forward "peer-7" (Plain VNull)); Call (Forward "peer-8" Circular)])
    as (_ & _ & H).
  exact (conj (H eq_refl) eq_refl).
Defined.

(** ** The gate only delays *)

(** No action reads the next fresh promise handle, so running actions
    commutes with advancing it. *)
Section NextPromise.
Variable n : promise.

Lemma settle_next_promise_commute p o s :
  settle p o (set_next_promise n s) = set_next_promise n (settle p o s).
Proof. unfold settle. hub_simpl. by case_match. Qed.

Lemma deferred_wait_next_promise_commute id p s :
  deferred_wait id p (set_next_promise n s) = set_next_promise n (deferred_wait id p s).
Proof.
  unfold deferred_wait. hub_simpl. case_match; [|done].
  apply settle_next_promise_commute.
Qed.

Lemma execute_next_promise_commute ap s :
  execute ap (set_next_promise n s) = set_next_promise n (execute ap s).
Proof.
  destruct ap as [[| | | |to data] p]; unfold execute, body, bind; hub_simpl;
    try (destruct (get (binding s) _) as [from|]; hub_simpl);
    try (destruct (JSON_stringify_forward to from data); hub_simpl);
    first [ apply settle_next_promise_commute
          | apply (deferred_wait_next_promise_commute _ _ (socket_send _ (set_request_id _ s)))
          | apply (settle_next_promise_commute _ _ (socket_send _ s)) ].
Qed.

Lemma drain_next_promise_commute q s :
  drain q (set_next_promise n s) = set_next_promise n (drain q s).
Proof.
  revert s. induction q as [|ap q IH]; intros s; simpl; [done|].
  by rewrite execute_next_promise_commute, IH.
Qed.
End NextPromise.

Lemma run_calls_closed (actions : list action) (s : NetworkHub) :
  paused (barrier s) = true ->
  run (Call <$> actions) s =
  set_barrier (mkBarrier true (awaiters (barrier s)
                               ++ enqueue_from (next_promise s) actions))
    (set_next_promise (next_promise s + length actions) s).
Proof.
  revert s. induction actions as [|a actions IH]; intros s Hp; simpl.
  - rewrite app_nil_r, Nat.add_0_r.
    destruct s as [? [pa aw] ? ? ? ? ? ? ?]. simpl in *. by subst.
  - unfold run in IH. unfold barrier_run at 1. hub_simpl. rewrite Hp. hub_simpl.
    rewrite IH by done. hub_simpl. unfold set_barrier, set_next_promise. hub_simpl.
    unfold enqueue_from. simpl. rewrite <- app_assoc. simpl.
    by rewrite Nat.add_succ_r.
Qed.

Lemma run_calls_open (actions : list action) (s : NetworkHub) :
  paused (barrier s) = false ->
  run (Call <$> actions) s =
  set_next_promise (next_promise s + length actions)
    (drain (enqueue_from (next_promise s) actions) s).
Proof.
  revert s. induction actions as [|a actions IH]; intros s Hp; simpl.
  - rewrite Nat.add_0_r. by destruct s.
  - unfold run in IH. unfold barrier_run at 1. hub_simpl. rewrite Hp. hub_simpl.
    rewrite IH by (by rewrite execute_barrier).
    rewrite execute_next_promise. hub_simpl.
    rewrite execute_next_promise_commute, drain_next_promise_commute.
    unfold set_next_promise. hub_simpl. by rewrite Nat.add_succ_r.
Qed.

(** X11: the gate only delays.  A batch of calls made while the gate is
    closed and then released by a handshake leaves the client in exactly
    the state it reaches when the handshake comes first and the same
    calls follow: the same envelopes in the same order with the same
    identifiers, the same correlation table and the same promises. *)
Theorem queued_calls_equal_direct_calls
    (s : NetworkHub) (actions : list action) (message : value) :
  paused (barrier s) = true ->
  is_handshake message = true ->
  run ((Call <$> actions) ++ [SocketMessage (Json message)]) s =
  run (SocketMessage (Json message) :: (Call <$> actions)) s.
Proof.
  intros Hp Hm.
  rewrite run_app, run_calls_closed by done.
  change (run (SocketMessage (Json message) :: (Call <$> actions)) s)
    with (run (Call <$> actions) (step s (SocketMessage (Json message)))).
  simpl. rewrite !(dispatch_handshake _ _ Hm).
  unfold barrier_resume. hub_simpl.
  rewrite run_calls_open by (by rewrite drain_barrier).
  rewrite drain_next_promise. hub_simpl.
  rewrite drain_app.
  change (set_barrier (mkBarrier false [])
            (set_binding message
               (set_barrier
                  (mkBarrier true (awaiters (barrier s)
                                   ++ enqueue_from (next_promise s) actions))
                  (set_next_promise (next_promise s + length actions) s))))
    with (set_next_promise (next_promise s + length actions)
            (set_barrier (mkBarrier false []) (set_binding message s))).
  by rewrite !drain_next_promise_commute.
Qed.

Lemma queued_calls_equal_direct_calls_witness :
  run ((Call <$> [Register "alice"; Address; Forward "peer-7" (Plain VNull)])
       ++ [SocketMessage (Json (handshake "peer-42"))]) constructor =
  run (SocketMessage (Json (handshake "peer-42"))
       :: (Call <$> [Register "alice"; Address; Forward "peer-7" (Plain VNull)])) constructor.
Proof.
  apply (queued_calls_equal_direct_calls constructor
           [Register "alice"; Address; Forward "peer-7" (Plain VNull)] (handshake "peer-42"));
    reflexivity.
Defined.

Lemma onMessage_raises_only_on_malformed_or_null_witness :
  onMessage (Json VNull) constructor = Throw TypeError.
Proof.
  apply (proj2 (onMessage_raises_only_on_malformed_or_null
                  (Json VNull) constructor TypeError)).
  right. split; [by left|reflexivity].
Defined.

(** ** The correlation table only holds identifiers that were sent *)

Lemma execute_slot_origin (ap : action * promise) (s : NetworkHub) (k : Z) (p : promise) :
  deferred (execute ap s) !! k = Some p ->
  deferred s !! k = Some p \/ (allocates (fst ap) = true /\ k = request_id s).
Proof.
  destruct ap as [[] q]; unfold execute, body, bind; hub_simpl;
    try (destruct (get (binding s) _)); try (destruct (JSON_stringify_forward _ _ _));
    autorewrite with hub; hub_simpl; auto.
  all: unfold deferred_wait; hub_simpl;
    destruct (deferred s !! request_id s) eqn:E; autorewrite with hub; hub_simpl; auto;
    rewrite lookup_insert; case_decide; subst; auto.
Qed.

Lemma execute_slot_sent (ap : action * promise) (s : NetworkHub) :
  (forall k p, deferred s !! k = Some p -> k ∈ identifiers (sent (socket s))) ->
  forall k p, deferred (execute ap s) !! k = Some p ->
              k ∈ identifiers (sent (socket (execute ap s))).
Proof.
  intros H k p Hk. rewrite execute_sent, identifiers_app, identifiers_frames_of.
  apply elem_of_app.
  apply execute_slot_origin in Hk as [Hk|[-> ->]]; [left; eauto|right; set_solver].
Qed.

Lemma drain_slot_sent (queue : list (action * promise)) (s : NetworkHub) :
  (forall k p, deferred s !! k = Some p -> k ∈ identifiers (sent (socket s))) ->
  forall k p, deferred (drain queue s) !! k = Some p ->
              k ∈ identifiers (sent (socket (drain queue s))).
Proof.
  revert s. induction queue as [|ap q IH]; intros s H; simpl; [done|].
  by apply IH, execute_slot_sent.
Qed.

Lemma step_slot_sent (s : NetworkHub) (i : input) :
  (forall k p, deferred s !! k = Some p -> k ∈ identifiers (sent (socket s))) ->
  forall k p, deferred (step s i) !! k = Some p ->
              k ∈ identifiers (sent (socket (step s i))).
Proof.
  intros H. destruct i as [a|[|message]|error| |]; simpl; try done.
  - unfold barrier_run. hub_simpl. case_match; hub_simpl; [done|].
    by apply (execute_slot_sent _ (set_next_promise _ s)).
  - destruct (onMessage (Json message) s) as [s'|e] eqn:E; [|done].
    apply onMessage_cases in E as [[_ ->]|[_ [->|[(id & o & ->)| ->]]]]; try done.
    + by apply (drain_slot_sent _ (set_barrier _ (set_binding message s))).
    + intros k p. autorewrite with hub. unfold deferred_complete.
      destruct id as [| | |j| | |]; try apply H.
      destruct (deferred s !! j); autorewrite with hub; hub_simpl; [|apply H].
      rewrite lookup_delete. case_decide; [done|apply H].
Qed.

(** X12: the client only waits for identifiers it has sent.  In every run
    each slot of the correlation table is under an identifier that occurs
    in a [register] or [lookup] envelope already given to the socket.
    Hence a response that carries a number the client never sent finds no
    slot and changes nothing. *)
Theorem table_holds_only_sent_identifiers
    (inputs : list input) (message : value) (t : string) (k : Z) :
  let s := run inputs constructor in
  (forall j p, deferred s !! j = Some p -> j ∈ identifiers (sent (socket s))) /\
  (get message "type" = Ok (VStr t) -> is_ok_tag t || is_fail_tag t = true ->
   get message "request_id" = Ok (VNum k) ->
   k ∉ identifiers (sent (socket s)) ->
   step s (SocketMessage (Json message)) = s).
Proof.
  intros s.
  assert (H : forall j p, deferred s !! j = Some p -> j ∈ identifiers (sent (socket s))).
  { subst s. induction inputs as [|i inputs IH] using rev_ind; [done|].
    rewrite run_snoc. by apply step_slot_sent. }
  split; [exact H|].
  intros Ht Htag Hid Hk. clearbody s.
  assert (Hnone : deferred s !! k = None).
  { destruct (deferred s !! k) eqn:E; [|done]. destruct Hk. eauto. }
  assert (Hm : forall o, deferred_complete (VNum k) o s = s)
    by (intros o; by apply deferred_complete_absent).
  simpl. rewrite onMessage_by_tag, Ht.
  apply orb_prop in Htag as [Htag|Htag].
  - unfold is_ok_tag in Htag. apply orb_prop in Htag as [E|E];
      apply String.eqb_eq in E; subst t; simpl;
      unfold onRegisterOk, onLookupOk, bind, deferred_resolve; by rewrite Hid, Hm.
  - unfold is_fail_tag in Htag. apply orb_prop in Htag as [E|E];
      apply String.eqb_eq in E; subst t; simpl;
      unfold onRegisterFail, onLookupFail, bind, deferred_reject; rewrite Hid;
      destruct (get message "reason") eqn:Ew; rewrite ?Hm; try done;
      destruct message; simpl in *; done.
Qed.

Lemma table_holds_only_sent_identifiers_witness :
  let s := run [SocketMessage (Json (handshake "peer-42")); Call (Register "alice")]
               constructor in
  step s (SocketMessage (Json (VObj [("type", VStr "register-ok"); ("request_id", VNum 7)])))
  = s.
Proof.
  destruct (table_holds_only_sent_identifiers
              [SocketMessage (Json (handshake "peer-42")); Call (Register "alice")]
              (VObj [("type", VStr "register-ok"); ("request_id", VNum 7)])
              "register-ok" 7) as [_ H].
  apply H; try reflexivity.
  vm_compute. intros Hin. apply list_elem_of_In in Hin. simpl in Hin.
  destruct Hin as [Hin|[]]. discriminate.
Defined.
